(** * zipfs: a zip archive served as a read-only file system

    Shallow embedding of [filesys.go] (package [zipfs]) and the properties
    of its archive index, metadata entries and file handles.

    Conventions of the embedding:
    - Go strings are byte strings: [string] of the standard library.
    - A [*fileInfo] is an address ([ptr]) into an explicit store, a list of
      nodes; the index [fileInfoMap] maps path keys to addresses, so two
      keys may alias one node exactly as in the source.
    - A nil slice or nil pointer is [None]; a non-nil empty slice is [Some []].
    - A Go result pair [(v, err)] is a Rocq pair whose second component is
      [option error] ([None] for a nil error).
    - The archive layer and the operating system are outside the package:
      the outcome of each of their fallible calls is read from an
      [environment], so every statement quantifies over their behaviour. *)

From Stdlib Require Import ZArith Ascii String List Lia.
From stdpp Require Import gmap strings list fin_maps sorting.

(** ** Byte strings: the [strings] functions the package calls *)

Definition in_cutset (c : ascii) (cutset : string) : bool :=
  existsb (Ascii.eqb c) (list_ascii_of_string cutset).

(** [strings.TrimLeft(s, cutset)] *)
Fixpoint TrimLeft (s cutset : string) : string :=
  match s with
  | EmptyString => EmptyString
  | String c r => if in_cutset c cutset then TrimLeft r cutset else s
  end.

(** [strings.TrimRight(s, cutset)] *)
Fixpoint TrimRight (s cutset : string) : string :=
  match s with
  | EmptyString => EmptyString
  | String c r =>
      match TrimRight r cutset with
      | EmptyString =>
          if in_cutset c cutset then EmptyString else String c EmptyString
      | r' => String c r'
      end
  end.

(** [strings.HasSuffix(s, suffix)]:
    [len(s) >= len(suffix) && s[len(s)-len(suffix):] == suffix] *)
Definition HasSuffix (s suffix : string) : bool :=
  (String.length suffix <=? String.length s) &&
  String.eqb
    (substring (String.length s - String.length suffix)
               (String.length suffix) s)
    suffix.

(** ** Package [path] of the Go standard library *)

Definition slash : ascii := "/"%char.
Definition dot : ascii := "."%char.

(** [path.Split]: everything up to and including the last slash, and the
    rest. *)
Fixpoint path_Split (path : string) : string * string :=
  match path with
  | EmptyString => (EmptyString, EmptyString)
  | String c r =>
      match path_Split r with
      | (EmptyString, file) =>
          if Ascii.eqb c slash then (String c EmptyString, file)
          else (EmptyString, String c file)
      | (dir, file) => (String c dir, file)
      end
  end.

(** The [..] case of [path.Clean] that can backtrack:
    [out.w--; for out.w > dotdot && out.index(out.w) != '/' { out.w-- }].
    The output buffer is kept reversed, [dropped] is the byte at [out.w]. *)
Fixpoint clean_backtrack (out : list ascii) (dotdot : nat) (dropped : ascii)
  : list ascii :=
  match out with
  | [] => []
  | c :: out' =>
      if (dotdot <? length out) && negb (Ascii.eqb dropped slash)
      then clean_backtrack out' dotdot c
      else out
  end.

(** Copy of one path element: [for ; r < n && path[r] != '/'; r++]. *)
Fixpoint clean_copy (r out : list ascii) : list ascii * list ascii :=
  match r with
  | [] => ([], out)
  | c :: r' => if Ascii.eqb c slash then (r, out) else clean_copy r' (c :: out)
  end.

(** The main loop [for r < n] of [path.Clean]; [r] is the unread input,
    [out] the reversed output buffer. Every round consumes input, so the
    length of the path is enough fuel. *)
Fixpoint clean_loop (fuel : nat) (rooted : bool) (r out : list ascii)
    (dotdot : nat) : list ascii :=
  match fuel with
  | O => out
  | S fuel' =>
      match r with
      | [] => out
      | c :: r1 =>
          if Ascii.eqb c slash then
            clean_loop fuel' rooted r1 out dotdot
          else if Ascii.eqb c dot
                  && match r1 with
                     | [] => true
                     | c1 :: _ => Ascii.eqb c1 slash
                     end then
            clean_loop fuel' rooted r1 out dotdot
          else if Ascii.eqb c dot
                  && match r1 with
                     | c1 :: [] => Ascii.eqb c1 dot
                     | c1 :: c2 :: _ => Ascii.eqb c1 dot && Ascii.eqb c2 slash
                     | [] => false
                     end then
            let r2 := tl r1 in
            if (dotdot <? length out) then
              match out with
              | d :: out' =>
                  clean_loop fuel' rooted r2 (clean_backtrack out' dotdot d)
                             dotdot
              | [] => clean_loop fuel' rooted r2 out dotdot
              end
            else if negb rooted then
              let out1 := if (0 <? length out) then slash :: out else out in
              let out2 := dot :: dot :: out1 in
              clean_loop fuel' rooted r2 out2 (length out2)
            else clean_loop fuel' rooted r2 out dotdot
          else
            let out1 :=
              if (rooted && negb (length out =? 1))
                 || (negb rooted && negb (length out =? 0))
              then slash :: out else out in
            let '(r2, out2) := clean_copy r out1 in
            clean_loop fuel' rooted r2 out2 dotdot
      end
  end.

(** [path.Clean] *)
Definition path_Clean (path : string) : string :=
  match list_ascii_of_string path with
  | [] => "."
  | c :: rest =>
      let rooted := Ascii.eqb c slash in
      let out :=
        if rooted
        then clean_loop (String.length path) rooted rest [slash] 1
        else clean_loop (String.length path) rooted (c :: rest) [] 0 in
      match out with
      | [] => "."
      | _ => string_of_list_ascii (rev out)
      end
  end.

(** [path.Dir]: [dir, _ := Split(path); return Clean(dir)] *)
Definition path_Dir (path : string) : string :=
  path_Clean (fst (path_Split path)).

(** [path.Base] *)
Definition path_Base (path : string) : string :=
  match path with
  | EmptyString => "."
  | _ =>
      match snd (path_Split (TrimRight path "/")) with
      | EmptyString => "/"
      | base => base
      end
  end.

(** ** Errors

    The four sentinels of the package, the sentinels of [os] and [io] that
    it returns, [*os.PathError], and the errors of the archive layer and
    of the operating system, which the package only passes along. *)

Inductive error : Type :=
| errFileClosed
| errFileSystemClosed
| errNotDirectory
| errDirectory
| ErrNotExist                               (* os.ErrNotExist *)
| ErrClosed                                 (* os.ErrClosed *)
| EOF                                       (* io.EOF *)
| PathError (Op Path : string) (Err : error)
| ioError (code : nat).

(** [error.Error()] *)
Fixpoint Error (e : error) : string :=
  match e with
  | errFileClosed => "file closed"
  | errFileSystemClosed => "filesystem closed"
  | errNotDirectory => "not a directory"
  | errDirectory => "is a directory"
  | ErrNotExist => "file does not exist"
  | ErrClosed => "file already closed"
  | EOF => "EOF"
  | PathError op path err => op +:+ " " +:+ path +:+ ": " +:+ Error err
  | ioError _ => "input/output error"
  end.

(** [strings.Contains(s, substr)] *)
Fixpoint Contains (s substr : string) : bool :=
  String.prefix substr s
  || match s with
     | EmptyString => false
     | String _ r => Contains r substr
     end.

(** ** The archive layer: [zip.File] as the package sees it *)

Module zip.
Record File : Type := {
  Name : string;
  UncompressedSize : Z;        (* uint32 *)
  UncompressedSize64 : Z;      (* uint64 *)
  Mode : Z                     (* result of Mode(), an os.FileMode *)
}.
End zip.

(** [os.ModeDir] and [FileMode.IsDir] *)
Definition ModeDir : Z := Z.shiftl 1 31.
Definition FileMode_IsDir (m : Z) : bool := negb (Z.land m ModeDir =? 0)%Z.

(** Conversion to [int64] *)
Definition int64 (z : Z) : Z := ((z + 2 ^ 63) mod 2 ^ 64 - 2 ^ 63)%Z.

(** ** Metadata entries and the archive index *)

(** A [*fileInfo]: the address of a node in the store. *)
Abbreviation ptr := nat (only parsing).

Record fileInfo : Type := {
  name : string;
  zipFile : option zip.File;
  fileInfos : list ptr
}.

Definition set_zipFile (zf : zip.File) (fi : fileInfo) : fileInfo :=
  {| name := name fi; zipFile := Some zf; fileInfos := fileInfos fi |}.

Definition set_fileInfos (l : list ptr) (fi : fileInfo) : fileInfo :=
  {| name := name fi; zipFile := zipFile fi; fileInfos := l |}.

(** [fileInfoMap.FindOrCreate]; a new node is allocated at the end of the
    store. *)
Definition FindOrCreate (fm : gmap string ptr) (h : list fileInfo)
    (nm : string) : ptr * (gmap string ptr * list fileInfo) :=
  let strippedName := TrimRight nm "/" in
  match fm !! nm with
  | Some fi => (fi, (fm, h))
  | None =>
      let fi := length h in
      let h' := h ++ [{| name := nm; zipFile := None; fileInfos := [] |}] in
      let fm1 := <[nm := fi]> fm in
      let fm2 :=
        if decide (strippedName = nm) then fm1
        else <[strippedName := fi]> fm1 in
      (fi, (fm2, h'))
  end.

(** The map key of the parent directory, as [FindOrCreateParent] computes
    it. *)
Definition parentDirName (nm : string) : string :=
  let strippedName := TrimRight nm "/" in
  let dirName := path_Dir strippedName in
  if decide (dirName = ".") then "/"
  else if negb (HasSuffix dirName "/") then dirName +:+ "/"
  else dirName.

(** [fileInfoMap.FindOrCreateParent] *)
Definition FindOrCreateParent (fm : gmap string ptr) (h : list fileInfo)
    (nm : string) : ptr * (gmap string ptr * list fileInfo) :=
  FindOrCreate fm h (parentDirName nm).

(** [fileInfo.Name] *)
Definition Name (fi : fileInfo) : string := path_Base (name fi).

(** [fileInfo.Size] *)
Definition Size (fi : fileInfo) : Z :=
  match zipFile fi with
  | None => 0%Z
  | Some zf =>
      if (zip.UncompressedSize64 zf =? 0)%Z
      then int64 (zip.UncompressedSize zf)
      else int64 (zip.UncompressedSize64 zf)
  end.

(** [fileInfo.IsDir] *)
Definition IsDir (fi : fileInfo) : bool :=
  match zipFile fi with
  | None => true
  | Some zf => FileMode_IsDir (zip.Mode zf)
  end.

(** [fileInfo.Mode]: [0555 | os.ModeDir] or [0444] *)
Definition Mode (fi : fileInfo) : Z :=
  match zipFile fi with
  | None => Z.lor 365 ModeDir
  | Some _ => if IsDir fi then Z.lor 365 ModeDir else 292%Z
  end.

(** [fileInfo.readdir]: a fresh, non-nil slice holding the children. *)
Definition readdir (fi : fileInfo) : option (list ptr) * option error :=
  if negb (FileMode_IsDir (Mode fi)) then (None, Some errNotDirectory)
  else (Some (fileInfos fi), None).

(** [fileInfoList.Less] on the nodes behind two addresses *)
Definition Less (h : list fileInfo) (p q : ptr) : bool :=
  match h !! p, h !! q with
  | Some a, Some b => String.ltb (Name a) (Name b)
  | _, _ => false
  end.

(** [sort.Sort]: some ordering of the slice by [Less]. The library does
    not fix the order of elements that compare equal; insertion sort is
    one admissible outcome. *)
Fixpoint sort_insert (less : ptr -> ptr -> bool) (x : ptr) (l : list ptr)
  : list ptr :=
  match l with
  | [] => [x]
  | y :: l' => if less y x then y :: sort_insert less x l' else x :: l
  end.

Definition sort_Sort (less : ptr -> ptr -> bool) (l : list ptr) : list ptr :=
  foldr (sort_insert less) [] l.

(** ** The file system *)

Record ZipFS : Type := {
  readerAt : option string;           (* the archive file, as io.ReaderAt *)
  closer : option string;             (* the same file, as io.Closer *)
  reader : option (list zip.File);    (* *zip.Reader: its File slice *)
  fs_fileInfos : option (gmap string ptr);   (* nil once closed *)
  store : list fileInfo               (* the nodes the index points to *)
}.

(** One round of the first loop of [New]. *)
Definition New_entry (st : gmap string ptr * list fileInfo) (zf : zip.File)
  : gmap string ptr * list fileInfo :=
  let '(fi, (fm, h)) := FindOrCreate st.1 st.2 (zip.Name zf) in
  let h := alter (set_zipFile zf) fi h in
  let '(fiParent, (fm, h)) := FindOrCreateParent fm h (zip.Name zf) in
  let h := alter (fun p => set_fileInfos (fileInfos p ++ [fi]) p) fiParent h in
  (fm, h).

(** One round of the second loop of [New]. *)
Definition New_sort (h : list fileInfo) (p : ptr) : list fileInfo :=
  alter (fun fi =>
           if (1 <? length (fileInfos fi))
           then set_fileInfos (sort_Sort (Less h) (fileInfos fi)) fi
           else fi) p h.

(** [New]. [open name] stands for the three calls into [os] and
    [archive/zip] that yield the archive's entries or fail. *)
Definition New (open : string -> error + list zip.File) (nm : string)
  : option ZipFS * option error :=
  match open nm with
  | inl err => (None, Some err)
  | inr files =>
      let '(fm, h) := fold_left New_entry files (∅, []) in
      let h := fold_left New_sort (map snd (map_to_list fm)) h in
      (Some {| readerAt := Some nm; closer := Some nm;
               reader := Some files; fs_fileInfos := Some fm; store := h |},
       None)
  end.

(** [ZipFS.openFileInfo] *)
Definition openFileInfo (fs : ZipFS) (nm : string)
  : option ptr * option error :=
  match readerAt fs with
  | None => (None, Some errFileSystemClosed)
  | Some _ =>
      let nm := path_Clean nm in
      let trimmedName := TrimLeft nm "/" in
      match default ∅ (fs_fileInfos fs) !! trimmedName with
      | None => (None, Some (PathError "Open" nm ErrNotExist))
      | Some fi => (Some fi, None)
      end
  end.

(** ** File handles *)

Record fileReader : Type := {
  f_name : string;                    (* the name used to open *)
  f_fileInfo : ptr;
  f_reader : option nat;              (* live decompression stream *)
  f_file : option nat;                (* temporary file *)
  f_closed : bool;
  f_readdir : option (list ptr)
}.

(** [fileInfo.openReader] *)
Definition openReader (fi : ptr) (nm : string) : fileReader :=
  {| f_name := nm; f_fileInfo := fi; f_reader := None; f_file := None;
     f_closed := false; f_readdir := None |}.

(** [ZipFS.Open] *)
Definition Open (fs : ZipFS) (nm : string) : option fileReader * option error :=
  match openFileInfo fs nm with
  | (Some fi, None) => (Some (openReader fi nm), None)
  | (_, err) => (None, err)
  end.

(** [ZipFS.Close]; [cerr] is what closing the archive file reports. *)
Definition ZipFS_Close (cerr : option error) (fs : ZipFS)
  : ZipFS * option error :=
  let err := match closer fs with Some _ => cerr | None => None end in
  ({| readerAt := None; closer := None; reader := None;
      fs_fileInfos := None; store := store fs |}, err).

Definition mkFile (nm : string) (size : Z) : zip.File :=
  {| zip.Name := nm; zip.UncompressedSize := size;
     zip.UncompressedSize64 := size; zip.Mode := 292%Z |}.

Definition mkDir (nm : string) (size : Z) : zip.File :=
  {| zip.Name := nm; zip.UncompressedSize := size;
     zip.UncompressedSize64 := size; zip.Mode := Z.lor 493 ModeDir |}.

Definition archive (files : list zip.File) : string -> error + list zip.File :=
  fun _ => inr files.

(** ** The world outside the package

    [environment] fixes what the archive layer and the operating system
    answer: [fails k] is the error of the [k]-th fallible external call
    ([None]: it succeeds), [amount k] the byte count or offset it reports.
    [world] is the observable state: how many external calls were made,
    how many temporary files [ioutil.TempFile] has created, which of them
    are open, which exist, and every [os.Remove] call in order. *)

Record environment : Type := {
  fails : nat -> option error;
  amount : nat -> Z
}.

Record world : Type := {
  calls : nat;
  streams : nat;
  created : nat;
  open_files : list nat;
  on_disk : list nat;
  removals : list nat
}.

Definition world0 : world :=
  {| calls := 0; streams := 0; created := 0; open_files := [];
     on_disk := []; removals := [] |}.

(** A call either returns or panics (nil dereference). *)
Inductive outcome (A : Type) : Type :=
| Ret (a : A)
| Panic.
Arguments Ret {A} a.
Arguments Panic {A}.

Definition M (A : Type) : Type := world -> outcome (A * world).

#[global] Instance M_ret : MRet M := fun A a w => Ret (a, w).
#[global] Instance M_bind : MBind M := fun A B k m w =>
  match m w with
  | Ret (a, w') => k a w'
  | Panic => Panic
  end.

Definition panic {A : Type} : M A := fun _ => Panic.

(** [x == nil] *)
Definition isNil {A : Type} (x : option A) : bool :=
  match x with
  | None => true
  | Some _ => false
  end.

Definition get : M world := fun w => Ret (w, w).
Definition put (w : world) : M unit := fun _ => Ret (tt, w).

Definition remove_id (t : nat) (l : list nat) : list nat :=
  filter (fun x => x ≠ t) l.

Definition tick (w : world) : world :=
  {| calls := S (calls w); streams := streams w; created := created w;
     open_files := open_files w; on_disk := on_disk w;
     removals := removals w |}.

Definition new_stream (w : world) : world :=
  {| calls := calls w; streams := S (streams w); created := created w;
     open_files := open_files w; on_disk := on_disk w;
     removals := removals w |}.

Definition new_temp (w : world) : world :=
  {| calls := calls w; streams := streams w; created := S (created w);
     open_files := created w :: open_files w;
     on_disk := created w :: on_disk w; removals := removals w |}.

Definition close_fd (t : nat) (w : world) : world :=
  {| calls := calls w; streams := streams w; created := created w;
     open_files := remove_id t (open_files w); on_disk := on_disk w;
     removals := removals w |}.

Definition log_remove (t : nat) (w : world) : world :=
  {| calls := calls w; streams := streams w; created := created w;
     open_files := open_files w; on_disk := on_disk w;
     removals := removals w ++ [t] |}.

Definition unlink (t : nat) (w : world) : world :=
  {| calls := calls w; streams := streams w; created := created w;
     open_files := open_files w; on_disk := remove_id t (on_disk w);
     removals := removals w |}.

Section External.
Variable env : environment.

(** One fallible external call: consult the environment, count it. *)
Definition ext : M (option error) :=
  w ← get; _ ← put (tick w); mret (fails env (calls w)).

Definition ext_amount : M Z := w ← get; mret (amount env (calls w)).

(** [zip.File.Open] on a possibly nil [*zip.File]: the method reads the
    fields of its receiver, so a nil receiver panics. *)
Definition zipFile_Open (zf : option zip.File)
  : M (option nat * option error) :=
  match zf with
  | None => panic
  | Some _ =>
      err ← ext;
      match err with
      | Some e => mret (None, Some e)
      | None => w ← get; _ ← put (new_stream w); mret (Some (streams w), None)
      end
  end.

(** [io.ReadCloser]: [Close] and [Read(p)] with [len(p) = n] *)
Definition ReadCloser_Close (r : nat) : M (option error) := ext.

Definition ReadCloser_Read (r : nat) (n : nat) : M (Z * option error) :=
  k ← ext_amount;
  err ← ext;
  mret (Z.max 0 (Z.min k (Z.of_nat n)), err).

(** [ioutil.TempFile("", "zipfs")]: a new file, open, under a fresh name *)
Definition ioutil_TempFile : M (option nat * option error) :=
  err ← ext;
  match err with
  | Some e => mret (None, Some e)
  | None => w ← get; _ ← put (new_temp w); mret (Some (created w), None)
  end.

(** [io.Copy(tempFile, reader)] *)
Definition io_Copy (t r : nat) : M (option error) := ext.

(** [os.File]: [Seek], [Read], [Close]. A closed file answers
    [os.ErrClosed]; closing releases the descriptor whatever the
    system call reports. *)
Definition File_Seek (t : nat) (offset whence : Z) : M (Z * option error) :=
  w ← get;
  if decide (t ∈ open_files w) then
    k ← ext_amount; err ← ext;
    mret (match err with None => k | Some _ => 0%Z end, err)
  else mret (0%Z, Some ErrClosed).

Definition File_Read (t : nat) (n : nat) : M (Z * option error) :=
  w ← get;
  if decide (t ∈ open_files w) then
    k ← ext_amount; err ← ext;
    mret (Z.max 0 (Z.min k (Z.of_nat n)), err)
  else mret (0%Z, Some ErrClosed).

Definition File_Close (t : nat) : M (option error) :=
  w ← get;
  if decide (t ∈ open_files w) then
    err ← ext; w ← get; _ ← put (close_fd t w); mret err
  else mret (Some ErrClosed).

(** [os.Remove] of a temporary file: every call is recorded; a file
    that is gone answers [os.ErrNotExist]. *)
Definition os_Remove (t : nat) : M (option error) :=
  w ← get;
  _ ← put (log_remove t w);
  if decide (t ∈ on_disk w) then
    err ← ext;
    match err with
    | Some e => mret (Some e)
    | None => w ← get; _ ← put (unlink t w); mret None
    end
  else mret (Some (PathError "remove" "zipfs" ErrNotExist)).

(** ** Operations on a handle *)

Definition set_reader (r : option nat) (f : fileReader) : fileReader :=
  {| f_name := f_name f; f_fileInfo := f_fileInfo f; f_reader := r;
     f_file := f_file f; f_closed := f_closed f; f_readdir := f_readdir f |}.

Definition set_file (t : option nat) (f : fileReader) : fileReader :=
  {| f_name := f_name f; f_fileInfo := f_fileInfo f; f_reader := f_reader f;
     f_file := t; f_closed := f_closed f; f_readdir := f_readdir f |}.

Definition set_closed (b : bool) (f : fileReader) : fileReader :=
  {| f_name := f_name f; f_fileInfo := f_fileInfo f; f_reader := f_reader f;
     f_file := f_file f; f_closed := b; f_readdir := f_readdir f |}.

Definition set_readdir (l : option (list ptr)) (f : fileReader)
  : fileReader :=
  {| f_name := f_name f; f_fileInfo := f_fileInfo f; f_reader := f_reader f;
     f_file := f_file f; f_closed := f_closed f; f_readdir := l |}.

(** [fileReader.pathError] *)
Definition pathError (f : fileReader) (op : string) (err : error) : error :=
  PathError op (f_name f) err.

(** [f.fileInfo.zipFile]: nil for a node without an archive record. *)
Definition zipFile_of (h : list fileInfo) (f : fileReader)
  : option zip.File :=
  h !! f_fileInfo f ≫= zipFile.

(** The closing loop of [Close]: the first non-nil error. *)
Fixpoint first_error (errs : list (option error)) : option error :=
  match errs with
  | [] => None
  | Some e :: _ => Some e
  | None :: errs' => first_error errs'
  end.

(** [fileReader.Close] *)
Definition fileReader_Close (f : fileReader)
  : M (fileReader * option error) :=
  errs ← match f_reader f with
         | Some r => err ← ReadCloser_Close r; mret [err]
         | None => mret []
         end;
  '(tempFile, errs) ← match f_file f with
                      | Some t =>
                          err ← File_Close t; mret (Some t, errs ++ [err])
                      | None => mret (None, errs)
                      end;
  errs ← match tempFile with
         | Some t => err ← os_Remove t; mret (errs ++ [err])
         | None => mret errs
         end;
  let f := set_closed true f in
  mret (f, pathError f "Close" <$> first_error errs).

(** [fileReader.Read(p)], [n = len(p)] *)
Definition Read (h : list fileInfo) (f : fileReader) (n : nat)
  : M (fileReader * (Z * option error)) :=
  if f_closed f then
    mret (f, (0%Z, Some (pathError f "Read" errFileClosed)))
  else
    match f_file f with
    | Some t => res ← File_Read t n; mret (f, res)
    | None =>
        match f_reader f with
        | Some r => res ← ReadCloser_Read r n; mret (f, res)
        | None =>
            '(rd, err) ← zipFile_Open (zipFile_of h f);
            let f := set_reader rd f in
            match err, rd with
            | Some e, _ => mret (f, (0%Z, Some e))
            | None, Some r => res ← ReadCloser_Read r n; mret (f, res)
            | None, None => panic
            end
        end
    end.

(** [createTempFile(f *zip.File)] *)
Definition createTempFile (zf : option zip.File)
  : M (option nat * option error) :=
  '(rd, err) ← zipFile_Open zf;
  match err, rd with
  | Some e, _ => mret (None, Some e)
  | None, None => panic
  | None, Some r =>
      res ← ('(tempFile, err) ← ioutil_TempFile;
             match err, tempFile with
             | Some e, _ => mret (None, Some e)
             | None, None => panic
             | None, Some t =>
                 err ← io_Copy t r;
                 match err with
                 | Some e =>
                     _ ← File_Close t; _ ← os_Remove t; mret (None, Some e)
                 | None =>
                     '(_, err) ← File_Seek t 0 0;
                     match err with
                     | Some e =>
                         _ ← File_Close t; _ ← os_Remove t;
                         mret (None, Some e)
                     | None => mret (Some t, None)
                     end
                 end
             end);
      _ ← ReadCloser_Close r;          (* defer reader.Close() *)
      mret res
  end.

(** [fileReader.createTempFile] *)
Definition fileReader_createTempFile (h : list fileInfo) (f : fileReader)
  : M (fileReader * option error) :=
  '(f, cerr) ← match f_reader f with
               | Some r =>
                   err ← ReadCloser_Close r;
                   match err with
                   | Some e => mret (f, Some e)
                   | None => mret (set_reader None f, None)
                   end
               | None => mret (f, None)
               end;
  match cerr with
  | Some e => mret (f, Some e)
  | None =>
      match f_file f with
      | Some _ => mret (f, None)
      | None =>
          '(osFile, err) ← createTempFile (zipFile_of h f);
          match err with
          | Some e => mret (f, Some e)
          | None => mret (set_file osFile f, None)
          end
      end
  end.

(** [fileReader.Seek] *)
Definition Seek (h : list fileInfo) (f : fileReader) (offset whence : Z)
  : M (fileReader * (Z * option error)) :=
  if f_closed f then
    mret (f, (0%Z, Some (pathError f "Seek" errFileClosed)))
  else
    cerr ← match f_reader f with
           | Some r => ReadCloser_Close r
           | None => mret None
           end;
    match cerr with
    | Some e => mret (f, (0%Z, Some e))
    | None =>
        if isNil (f_file f) && (offset =? 0)%Z && (whence =? 0)%Z then
          '(rd, err) ← zipFile_Open (zipFile_of h f);
          mret (set_reader rd f, (0%Z, err))
        else
          '(f, err) ← fileReader_createTempFile h f;
          match err, f_file f with
          | Some e, _ => mret (f, (0%Z, Some e))
          | None, Some t => res ← File_Seek t offset whence; mret (f, res)
          | None, None => panic
          end
    end.
End External.

(** [fileReader.Readdir]; it calls nothing outside the package. An address
    outside the store has no counterpart in the source and is a panic. *)
Definition Readdir (h : list fileInfo) (f : fileReader) (count : Z)
  : outcome (fileReader * (option (list ptr) * option error)) :=
  match h !! f_fileInfo f with
  | None => Panic
  | Some fi =>
      if (0 <? count)%Z then
        let '(f, err) :=
          match f_readdir f with
          | None => let '(l, err) := readdir fi in (set_readdir l f, err)
          | Some _ => (f, None)
          end in
        match err with
        | Some e => Ret (f, (None, Some (pathError f "Readdir" e)))
        | None =>
            let l := default [] (f_readdir f) in
            if (count <=? Z.of_nat (length l))%Z then
              Ret (set_readdir (Some (drop (Z.to_nat count) l)) f,
                   (Some (take (Z.to_nat count) l), None))
            else
              Ret (set_readdir None f, (f_readdir f, Some EOF))
        end
      else
        let '(l, err) := readdir fi in
        match err with
        | Some e => Ret (f, (None, Some (pathError f "Readdir" e)))
        | None => Ret (f, (l, None))
        end
  end.

(** ** Runs of calls on one handle *)

(** Successive [Readdir] calls with the given counts; the results in
    order. *)
Fixpoint Readdir_seq (h : list fileInfo) (f : fileReader) (counts : list Z)
  : outcome (fileReader * list (option (list ptr) * option error)) :=
  match counts with
  | [] => Ret (f, [])
  | c :: cs =>
      match Readdir h f c with
      | Panic => Panic
      | Ret (f', r) =>
          match Readdir_seq h f' cs with
          | Panic => Panic
          | Ret (f'', rs) => Ret (f'', r :: rs)
          end
      end
  end.

(** [Readdir(count)] repeated until a call reports an error; the pages in
    order, the last one being the page that came with the error. *)
Fixpoint Readdir_until_error (fuel : nat) (h : list fileInfo) (f : fileReader)
    (count : Z) : option (list (option (list ptr) * option error)) :=
  match fuel with
  | O => None
  | S fuel' =>
      match Readdir h f count with
      | Panic => None
      | Ret (f', (l, Some e)) => Some [(l, Some e)]
      | Ret (f', (l, None)) =>
          cons (l, None) <$> Readdir_until_error fuel' h f' count
      end
  end.

(** The entries of a page; a nil slice has none. *)
Definition page (r : option (list ptr) * option error) : list ptr :=
  default [] r.1.

(** Successive [Seek] calls with the given [(offset, whence)] requests. *)
Fixpoint Seek_seq (env : environment) (h : list fileInfo) (f : fileReader)
    (reqs : list (Z * Z)) : M fileReader :=
  match reqs with
  | [] => mret f
  | (offset, whence) :: reqs' =>
      '(f', _) ← Seek env h f offset whence;
      Seek_seq env h f' reqs'
  end.

(** An environment in which no external call fails and every read or
    seek reports [n]. *)
Definition quiet (n : Z) : environment :=
  {| fails := fun _ => None; amount := fun _ => n |}.

(** ** Vocabulary of the statements *)

(** [fi] is the node behind some key of the index of [fs]. *)
Definition index_entry (fs : ZipFS) (fi : fileInfo) : Prop :=
  exists (k : string) (p : ptr),
    default ∅ (fs_fileInfos fs) !! k = Some p /\ store fs !! p = Some fi.

(** The handle [f] is open on a node that lists as a directory. *)
Definition directory_handle (h : list fileInfo) (f : fileReader)
    (fi : fileInfo) : Prop :=
  h !! f_fileInfo f = Some fi /\ FileMode_IsDir (Mode fi) = true.

(** The handle [f] is open on a node with an archive record. *)
Definition file_handle (h : list fileInfo) (f : fileReader) : Prop :=
  exists zf, zipFile_of h f = Some zf.

(** ** The index built by [New]: vocabulary and invariant *)

(** Last byte is a slash. *)
Fixpoint ends_in_slash (s : string) : bool :=
  match s with
  | EmptyString => false
  | String c EmptyString => Ascii.eqb c slash
  | String _ r => ends_in_slash r
  end.

(** The node [FindOrCreate] allocates for a new name. *)
Definition mkNode (nm : string) : fileInfo :=
  {| name := nm; zipFile := None; fileInfos := [] |}.

(** The one or two keys [FindOrCreate] registers for a new name. *)
Definition add_keys (fm : gmap string ptr) (nm : string) (n : ptr)
  : gmap string ptr :=
  if decide (TrimRight nm "/" = nm) then <[nm := n]> fm
  else <[TrimRight nm "/" := n]> (<[nm := n]> fm).

(** What every round of the first loop of [New] maintains. [seen] are the
    entries whose names may occur in the store, [linked] the entries already
    hung below their parent.
    - every key leads to a node, and names that node up to trailing slashes;
    - a child is listed only by the node under the key of its parent
      directory;
    - once the key ["/"] exists so does the key [""], and both lead to the
      same node unless a node is named by slashes only;
    - every linked entry has a node in the child list of its parent;
    - an archive record sits only on a node that bears its name;
    - every node is named after an entry or after an entry's parent. *)
Record index_inv (seen linked : list zip.File) (fm : gmap string ptr)
    (h : list fileInfo) : Prop := {
  inv_key : forall k p, fm !! k = Some p ->
    exists fi, h !! p = Some fi /\
               TrimRight k "/" = TrimRight (name fi) "/";
  inv_child : forall p fi q, h !! p = Some fi -> q ∈ fileInfos fi ->
    exists fq, h !! q = Some fq /\ fm !! parentDirName (name fq) = Some p;
  inv_root : forall p, fm !! "/" = Some p -> is_Some (fm !! "");
  inv_alias :
    (forall p fi, h !! p = Some fi -> TrimRight (name fi) "/" = "" ->
                  name fi = "/") ->
    forall p, fm !! "/" = Some p -> fm !! "" = Some p;
  inv_linked : forall zf, zf ∈ linked ->
    exists p fi q fq,
      fm !! parentDirName (zip.Name zf) = Some p /\ h !! p = Some fi /\
      q ∈ fileInfos fi /\ h !! q = Some fq /\
      TrimRight (name fq) "/" = TrimRight (zip.Name zf) "/";
  inv_record : forall p fi zf, h !! p = Some fi -> zipFile fi = Some zf ->
    zf ∈ seen /\ TrimRight (zip.Name zf) "/" = TrimRight (name fi) "/";
  inv_name : forall p fi, h !! p = Some fi ->
    exists zf, zf ∈ seen /\
      (name fi = zip.Name zf \/ name fi = parentDirName (zip.Name zf))
}.

(** The output buffer of [path.Clean] (reversed): no two slashes in a
    row, and the last byte written is a slash only when the buffer is the
    leading slash of a rooted path. *)
Fixpoint no_double_slash (l : list ascii) : Prop :=
  match l with
  | c1 :: r => match r with
               | c2 :: _ => ~ (c1 = slash /\ c2 = slash)
               | [] => True
               end /\ no_double_slash r
  | [] => True
  end.

Definition head_ok (rooted : bool) (l : list ascii) : Prop :=
  match l with
  | [] => True
  | [c] => rooted = true \/ c <> slash
  | c :: _ => c <> slash
  end.

(** [Open("/")] succeeds. *)
Definition root_reachable (fs : ZipFS) : Prop :=
  exists f, Open fs "/" = (Some f, None).

(** The node at [p] is the index entry under the parent key of the archive
    entry [zf], and its child list holds a node named as [zf] is (up to
    trailing slashes). *)
Definition has_parent (fs : ZipFS) (zf : zip.File) (p : ptr) : Prop :=
  exists fi q fq,
    default ∅ (fs_fileInfos fs) !! parentDirName (zip.Name zf) = Some p /\
    store fs !! p = Some fi /\ q ∈ fileInfos fi /\
    store fs !! q = Some fq /\
    TrimRight (name fq) "/" = TrimRight (zip.Name zf) "/".

(** ** Further vocabulary: worlds, keys, order of names *)

(** The world is well formed: every open temporary file was created. *)
Definition world_ok (w : world) : Prop :=
  forall t, t ∈ open_files w \/ t ∈ on_disk w -> t < created w.

(** The descriptors open in the world are those of [base] and the
    temporary file of the handle, if it has one. *)
Definition owns (f : fileReader) (w : world) (base : list nat) : Prop :=
  match f_file f with
  | None => open_files w = base
  | Some t => open_files w = t :: base /\ t ∉ base
  end.

(** The same for the temporary files on disk. *)
Definition owns_disk (f : fileReader) (w : world) (base : list nat) : Prop :=
  match f_file f with
  | None => on_disk w = base
  | Some t => on_disk w = t :: base /\ t ∉ base
  end.

(** Every key has its alias without trailing slashes. *)
Definition keys_closed (fm : gmap string ptr) : Prop :=
  forall k, is_Some (fm !! k) -> is_Some (fm !! TrimRight k "/").

(** The base name of the node at an address, and the order of two nodes
    by base name: the order in which [Less] never puts the second before
    the first. *)
Definition node_Name (h : list fileInfo) (q : ptr) : option string :=
  Name <$> h !! q.

Definition name_le (h : list fileInfo) (a b : ptr) : Prop :=
  exists na nb,
    node_Name h a = Some na /\ node_Name h b = Some nb /\
    String.leb na nb = true.

(** Successive [Read] calls with buffers of the given lengths. *)
Fixpoint Read_seq (env : environment) (h : list fileInfo) (f : fileReader)
    (ns : list nat) : M fileReader :=
  match ns with
  | [] => mret f
  | n :: ns' => '(f', _) ← Read env h f n; Read_seq env h f' ns'
  end.

(** The child list of the node at [p], if there is one, is in order. *)
Definition sorted_at (h : list fileInfo) (p : ptr) : Prop :=
  forall fi, h !! p = Some fi -> StronglySorted (name_le h) (fileInfos fi).

(* ===================================================================== *)
(** * Properties *)

(** ** Strings and paths *)

Example Clean_examples :
  path_Clean "a//b" = "a/b" /\ path_Clean "/../a/./b/../c/" = "/a/c" /\
  path_Clean "" = "." /\ path_Clean "../../a" = "../../a" /\
  path_Clean "a/.." = "." /\ path_Clean "/" = "/" /\
  path_Clean "a/b/../../../c/" = "../c" /\ path_Clean "abc/def/" = "abc/def".
Proof. repeat split; reflexivity. Qed.

Example Dir_Base_examples :
  path_Dir "a/b/c.txt" = "a/b" /\ path_Dir "a.txt" = "." /\
  path_Dir "/a" = "/" /\ path_Dir "" = "." /\
  path_Base "a/b/c.txt" = "c.txt" /\ path_Base "a/b/" = "b" /\
  path_Base "/" = "/" /\ path_Base "" = ".".
Proof. repeat split; reflexivity. Qed.

Lemma prefix_append (p s : string) : String.prefix p (p +:+ s) = true.
Proof.
  induction p as [|c p IH]; simpl.
  - by destruct s.
  - rewrite IH. by destruct (ascii_dec c c).
Qed.

Lemma Contains_prefix (p s : string) :
  String.prefix p s = true -> Contains s p = true.
Proof. intros Hp. destruct s; cbn [Contains]; by rewrite Hp. Qed.

Lemma Contains_append (a p b : string) : Contains (a +:+ p +:+ b) p = true.
Proof.
  induction a as [|c a IH].
  - change ("" +:+ p +:+ b) with (p +:+ b).
    apply Contains_prefix, prefix_append.
  - change (String c a +:+ p +:+ b) with (String c (a +:+ p +:+ b)).
    cbn [Contains]. rewrite IH. apply orb_true_r.
Qed.

(** ** Metadata entries: [Size] *)

Lemma int64_small (z : Z) : (0 <= z < 2 ^ 63)%Z -> int64 z = z.
Proof.
  intros Hz. unfold int64.
  rewrite Z.mod_small; lia.
Qed.

(** C8 (counterexample). An explicit directory entry of the archive whose
    record carries a non-zero uncompressed size is a directory of the
    index, and [Size] reports that size, not 0. *)
Lemma Size_directory_nonzero :
  ~ (forall open nm fs fi,
        New open nm = (Some fs, None) -> index_entry fs fi ->
        IsDir fi = true -> Size fi = 0%Z).
Proof.
  intros H.
  specialize (H (archive [mkDir "d/" 7]) "x.zip").
  edestruct (New (archive [mkDir "d/" 7]) "x.zip") as [[fs|] e] eqn:E;
    [|vm_compute in E; discriminate].
  vm_compute in E. injection E as <- <-.
  specialize (H _ {| name := "d/"; zipFile := Some (mkDir "d/" 7);
                     fileInfos := [] |} eq_refl).
  discriminate H; [|reflexivity].
  exists "d", 0. split; vm_compute; reflexivity.
Qed.

(** C8 (amended). [Size] is 0 for a node without an archive record (a
    synthesised directory). For every node with an archive record, file or
    explicit directory alike, it is the recorded uncompressed size: the
    64-bit field converted to [int64] when that field is non-zero (the
    field itself below 2^63), otherwise the 32-bit field. *)
Theorem Size_spec (fi : fileInfo) :
  (zipFile fi = None -> IsDir fi = true /\ Size fi = 0%Z) /\
  (forall zf, zipFile fi = Some zf ->
     (0 <= zip.UncompressedSize zf < 2 ^ 32)%Z ->
     (0 <= zip.UncompressedSize64 zf < 2 ^ 64)%Z ->
     (zip.UncompressedSize64 zf <> 0%Z ->
        Size fi = int64 (zip.UncompressedSize64 zf) /\
        ((zip.UncompressedSize64 zf < 2 ^ 63)%Z ->
           Size fi = zip.UncompressedSize64 zf)) /\
     (zip.UncompressedSize64 zf = 0%Z -> Size fi = zip.UncompressedSize zf)).
Proof.
  unfold Size, IsDir. split.
  - intros ->. done.
  - intros zf -> H32 H64. split.
    + intros Hnz. destruct (Z.eqb_spec (zip.UncompressedSize64 zf) 0); [done|].
      split; [done|]. intros Hlt. apply int64_small. lia.
    + intros ->. simpl. apply int64_small. lia.
Qed.

Lemma Size_spec_witness :
  let zf := {| zip.Name := "big.bin"; zip.UncompressedSize := 4294967295;
               zip.UncompressedSize64 := 5000000000; zip.Mode := 292 |} in
  Size {| name := "big.bin"; zipFile := Some zf; fileInfos := [] |}
  = 5000000000%Z.
Proof.
  intros zf.
  destruct (Size_spec {| name := "big.bin"; zipFile := Some zf;
                         fileInfos := [] |}) as [_ H].
  destruct (H zf eq_refl) as [H64 _]; [simpl; lia .. |].
  apply H64; [simpl; lia | reflexivity].
Defined.

(** ** The file system: [Open] *)

(** C7 (counterexample). [Open] cleans the path before it builds the
    not-found error, so the error of a path that is not clean carries the
    cleaned path and its message does not contain the requested string. *)
Lemma Open_not_found_reports_cleaned_path :
  ~ (forall fs nm,
        readerAt fs <> None ->
        default ∅ (fs_fileInfos fs) !! TrimLeft (path_Clean nm) "/" = None ->
        exists e, Open fs nm = (None, Some e) /\ Contains (Error e) nm = true).
Proof.
  intros H.
  destruct (H {| readerAt := Some "x.zip"; closer := Some "x.zip";
                 reader := Some []; fs_fileInfos := Some ∅; store := [] |}
              "a//b") as (e & HO & HC); [done | done |].
  vm_compute in HO. injection HO as <-.
  vm_compute in HC. discriminate.
Qed.

(** C7 (amended). After the file system's [Close], [Open] fails with the
    filesystem-closed error for every path, and that error differs from
    not-found. Before [Close], for every path whose cleaned form, less its
    leading slashes, is no key of the index, [Open] fails with a not-found
    path error that carries the cleaned form of the requested path (the
    requested string itself when it is already clean). *)
Theorem Open_errors (fs : ZipFS) (nm : string) :
  (forall cerr,
      Open (ZipFS_Close cerr fs).1 nm = (None, Some errFileSystemClosed)) /\
  errFileSystemClosed <> PathError "Open" (path_Clean nm) ErrNotExist /\
  (readerAt fs <> None ->
   default ∅ (fs_fileInfos fs) !! TrimLeft (path_Clean nm) "/" = None ->
   Open fs nm = (None, Some (PathError "Open" (path_Clean nm) ErrNotExist)) /\
   Contains (Error (PathError "Open" (path_Clean nm) ErrNotExist))
            (path_Clean nm) = true /\
   (path_Clean nm = nm ->
    Contains (Error (PathError "Open" (path_Clean nm) ErrNotExist)) nm
    = true)).
Proof.
  split; [|split].
  - intros cerr. reflexivity.
  - discriminate.
  - intros Hopen Hnone.
    assert (HC : Contains (Error (PathError "Open" (path_Clean nm) ErrNotExist))
                          (path_Clean nm) = true).
    { cbn [Error]. apply (Contains_append "Open "). }
    split; [|split]; [| exact HC | intros Heq; rewrite Heq in HC |- *; exact HC].
    unfold Open, openFileInfo.
    destruct (readerAt fs); [|done]. by rewrite Hnone.
Qed.

Lemma Open_errors_witness :
  let fs := {| readerAt := Some "x.zip"; closer := Some "x.zip";
               reader := Some []; fs_fileInfos := Some ∅; store := [] |} in
  Open fs "/no/such" = (None, Some (PathError "Open" "/no/such" ErrNotExist)).
Proof.
  intros fs.
  destruct (Open_errors fs "/no/such") as (_ & _ & H).
  destruct H as [H _]; [discriminate | reflexivity |].
  exact H.
Defined.

(** ** Handles: helper facts *)

Lemma Read_closed env h f n w :
  f_closed f = true ->
  Read env h f n w = Ret ((f, (0%Z, Some (pathError f "Read" errFileClosed))), w).
Proof. intros Hc. unfold Read. by rewrite Hc. Qed.

Lemma Seek_closed env h f offset whence w :
  f_closed f = true ->
  Seek env h f offset whence w
  = Ret ((f, (0%Z, Some (pathError f "Seek" errFileClosed))), w).
Proof. intros Hc. unfold Seek. by rewrite Hc. Qed.

Lemma Read_nil_zipFile env h f n w :
  f_closed f = false -> f_file f = None -> f_reader f = None ->
  zipFile_of h f = None ->
  Read env h f n w = Panic.
Proof.
  intros Hc Hf Hr Hz. unfold Read. by rewrite Hc, Hf, Hr, Hz.
Qed.

(** C2 (code at the failing input). In the archive with the single entry
    [a.txt] the root directory is synthesised; [Open("/")] succeeds on it
    and the first [Read] on that handle dereferences the nil [zipFile]:
    a panic, whatever the environment, not an error. *)
Theorem Read_synthetic_directory_panics (env : environment) (n : nat)
    (w : world) :
  exists fs f fi,
    New (archive [mkFile "a.txt" 3]) "x.zip" = (Some fs, None) /\
    Open fs "/" = (Some f, None) /\
    store fs !! f_fileInfo f = Some fi /\
    IsDir fi = true /\ zipFile fi = None /\
    Read env (store fs) f n w = Panic.
Proof.
  eexists _, _, _.
  split; [vm_compute; reflexivity|].
  split; [vm_compute; reflexivity|].
  split; [vm_compute; reflexivity|].
  split; [reflexivity|]. split; [reflexivity|].
  by apply Read_nil_zipFile.
Qed.

(** C3 (code at the failing input). [Read] and [Seek] test the closed
    flag, [Readdir] does not: on the root handle of the archive with the
    single entry [a.txt], [Close] succeeds and sets the flag, and the
    [Readdir] calls that follow return the listing with no closed-handle
    error. *)
Theorem Readdir_after_Close_lists (env : environment) (w : world) :
  exists fs f f',
    New (archive [mkFile "a.txt" 3]) "x.zip" = (Some fs, None) /\
    Open fs "/" = (Some f, None) /\
    fileReader_Close env f w = Ret ((f', None), w) /\
    f_closed f' = true /\
    Readdir (store fs) f' 0 = Ret (f', (Some [0], None)) /\
    Readdir (store fs) f' 1
    = Ret (set_readdir (Some []) f', (Some [0], None)) /\
    (forall n,
        Read env (store fs) f' n w
        = Ret ((f', (0%Z, Some (PathError "Read" "/" errFileClosed))), w)) /\
    (forall offset whence,
        Seek env (store fs) f' offset whence w
        = Ret ((f', (0%Z, Some (PathError "Seek" "/" errFileClosed))), w)).
Proof.
  eexists _, _, _.
  do 6 (split; [vm_compute; reflexivity|]).
  split; intros; [by apply Read_closed | by apply Seek_closed].
Qed.

(** C4 (code at the failing input). [Close] neither tests the closed flag
    nor clears [f.file]. On a handle for [a.txt] that a seek to offset 5
    has materialised, the first [Close] succeeds and removes the temporary
    file; the second [Close] closes the file again, calls [os.Remove] on
    the same name again, and returns a path error. *)
Theorem Close_twice_removes_twice :
  exists fs f f1 r1 w1 f2 w2 f3 w3 t,
    New (archive [mkFile "a.txt" 3]) "x.zip" = (Some fs, None) /\
    Open fs "a.txt" = (Some f, None) /\
    Seek (quiet 5) (store fs) f 5 0 world0 = Ret ((f1, r1), w1) /\
    f_file f1 = Some t /\ on_disk w1 = [t] /\
    fileReader_Close (quiet 5) f1 w1 = Ret ((f2, None), w2) /\
    removals w2 = [t] /\ on_disk w2 = [] /\
    fileReader_Close (quiet 5) f2 w2
    = Ret ((f3, Some (PathError "Close" "a.txt" ErrClosed)), w3) /\
    removals w3 = [t; t].
Proof.
  eexists _, _, _, _, _, _, _, _, _, _.
  repeat (split; [vm_compute; reflexivity|]).
  vm_compute; reflexivity.
Qed.

(** C5 (code at the failing input). Exhaustion resets the cursor to nil,
    which is also the not-yet-loaded state: on the root handle of the
    archive with the single entry [a.txt], [Readdir(2)] returns the entry
    with the end-of-listing signal, and the next [Readdir(2)] loads the
    listing afresh and returns the entry again, not an empty result. *)
Theorem Readdir_restarts_after_EOF :
  exists fs f f1 f2,
    New (archive [mkFile "a.txt" 3]) "x.zip" = (Some fs, None) /\
    Open fs "/" = (Some f, None) /\
    Readdir (store fs) f 2 = Ret (f1, (Some [0], Some EOF)) /\
    Readdir (store fs) f1 2 = Ret (f2, (Some [0], Some EOF)).
Proof.
  eexists _, _, _, _.
  repeat (split; [vm_compute; reflexivity|]).
  vm_compute; reflexivity.
Qed.

(** ** Handles: [Readdir] *)

Lemma readdir_directory (fi : fileInfo) :
  FileMode_IsDir (Mode fi) = true -> readdir fi = (Some (fileInfos fi), None).
Proof. intros Hd. unfold readdir. by rewrite Hd. Qed.

Lemma Readdir_nonpositive h f fi count :
  directory_handle h f fi -> (count <= 0)%Z ->
  Readdir h f count = Ret (f, (Some (fileInfos fi), None)).
Proof.
  intros [Hp Hd] Hc. unfold Readdir. rewrite Hp.
  destruct (Z.ltb_spec 0 count); [lia|].
  by rewrite (readdir_directory _ Hd).
Qed.

Lemma Readdir_total h f fi count :
  h !! f_fileInfo f = Some fi ->
  exists f' r, Readdir h f count = Ret (f', r) /\ f_fileInfo f' = f_fileInfo f.
Proof.
  intros Hp. unfold Readdir. rewrite Hp.
  destruct (0 <? count)%Z.
  - destruct (f_readdir f) as [l|] eqn:El.
    + rewrite El. simpl.
      destruct (count <=? Z.of_nat (length l))%Z; eauto.
    + destruct (readdir fi) as [l [e|]]; simpl; [eauto|].
      destruct (count <=? Z.of_nat (length (default [] l)))%Z; eauto.
  - destruct (readdir fi) as [l [e|]]; eauto.
Qed.

Lemma Readdir_seq_total h f fi counts :
  h !! f_fileInfo f = Some fi ->
  exists f' rs,
    Readdir_seq h f counts = Ret (f', rs) /\ f_fileInfo f' = f_fileInfo f.
Proof.
  revert f. induction counts as [|c cs IH]; intros f Hp; simpl.
  - eauto.
  - destruct (Readdir_total h f fi c Hp) as (f1 & r & -> & Hf1).
    destruct (IH f1) as (f2 & rs & -> & Hf2); [by rewrite Hf1|].
    eexists _, _. split; [done|]. by rewrite Hf2.
Qed.

Lemma Readdir_seq_app h f f1 f2 before after rb ra :
  Readdir_seq h f before = Ret (f1, rb) ->
  Readdir_seq h f1 after = Ret (f2, ra) ->
  Readdir_seq h f (before ++ after) = Ret (f2, rb ++ ra).
Proof.
  revert f rb. induction before as [|c cs IH]; intros f rb Hb Ha; simpl in *.
  - by injection Hb as <- <-.
  - destruct (Readdir h f c) as [[f' r]|]; [|done].
    destruct (Readdir_seq h f' cs) as [[f'' rs]|] eqn:E; [|done].
    injection Hb as <- <-.
    by rewrite (IH f' rs E Ha).
Qed.

(** C10. On a directory handle a [Readdir] call with [count <= 0] returns
    the full child list and leaves the handle, its pagination cursor
    included, as it found it: put between any two runs of [Readdir] calls
    it adds its own result and changes neither the results of the calls
    after it nor the final state of the handle. *)
Theorem Readdir_nonpositive_frame h f fi (count : Z) (before after : list Z) :
  directory_handle h f fi -> (count <= 0)%Z ->
  exists f1 rb f2 ra,
    Readdir_seq h f before = Ret (f1, rb) /\
    Readdir h f1 count = Ret (f1, (Some (fileInfos fi), None)) /\
    Readdir_seq h f1 after = Ret (f2, ra) /\
    Readdir_seq h f (before ++ after) = Ret (f2, rb ++ ra) /\
    Readdir_seq h f (before ++ count :: after)
    = Ret (f2, rb ++ (Some (fileInfos fi), None) :: ra).
Proof.
  intros [Hp Hd] Hc.
  destruct (Readdir_seq_total h f fi before Hp) as (f1 & rb & Hb & Hf1).
  assert (Hp1 : h !! f_fileInfo f1 = Some fi) by (by rewrite Hf1).
  destruct (Readdir_seq_total h f1 fi after Hp1) as (f2 & ra & Ha & Hf2).
  assert (H0 : Readdir h f1 count = Ret (f1, (Some (fileInfos fi), None)))
    by (by apply Readdir_nonpositive).
  exists f1, rb, f2, ra. repeat split; try done.
  - by apply Readdir_seq_app with f1.
  - apply Readdir_seq_app with f1; [done|].
    simpl. by rewrite H0, Ha.
Qed.

Lemma Readdir_nonpositive_frame_witness :
  let h := [ {| name := "a.txt"; zipFile := Some (mkFile "a.txt" 3);
                fileInfos := [] |};
             {| name := "b.txt"; zipFile := Some (mkFile "b.txt" 3);
                fileInfos := [] |};
             {| name := "/"; zipFile := None; fileInfos := [0; 1] |} ]%nat in
  exists f2,
    Readdir_seq h (openReader 2 "/") [1; 0; 1]%Z
    = Ret (f2, [(Some [0], None); (Some [0; 1], None); (Some [1], None)])%nat.
Proof.
  intros h.
  destruct (Readdir_nonpositive_frame h (openReader 2 "/")
              {| name := "/"; zipFile := None; fileInfos := [0; 1]%nat |}
              0 [1%Z] [1%Z])
    as (f1 & rb & f2 & ra & Hb & _ & Ha & _ & H); [by split | lia |].
  vm_compute in Hb. injection Hb as <- <-.
  vm_compute in Ha. injection Ha as <- <-.
  eexists. exact H.
Defined.

Lemma Readdir_cursor h f fi (count : Z) (l : list ptr) :
  h !! f_fileInfo f = Some fi -> (0 < count)%Z -> f_readdir f = Some l ->
  Readdir h f count =
    if (count <=? Z.of_nat (length l))%Z
    then Ret (set_readdir (Some (drop (Z.to_nat count) l)) f,
              (Some (take (Z.to_nat count) l), None))
    else Ret (set_readdir None f, (Some l, Some EOF)).
Proof.
  intros Hp Hc Hl. unfold Readdir. rewrite Hp.
  destruct (Z.ltb_spec 0 count); [|lia].
  rewrite Hl. simpl. by rewrite Hl.
Qed.

Lemma Readdir_load h f fi (count : Z) :
  directory_handle h f fi -> (0 < count)%Z -> f_readdir f = None ->
  Readdir h f count = Readdir h (set_readdir (Some (fileInfos fi)) f) count.
Proof.
  intros [Hp Hd] Hc Hl.
  rewrite (Readdir_cursor h (set_readdir (Some (fileInfos fi)) f) fi count
             (fileInfos fi)); [|done..].
  unfold Readdir. rewrite Hp.
  destruct (Z.ltb_spec 0 count); [|lia].
  rewrite Hl, (readdir_directory _ Hd). simpl.
  by destruct (count <=? Z.of_nat (length (fileInfos fi)))%Z.
Qed.

Lemma Readdir_until_error_unfold fuel h f count :
  Readdir_until_error (S fuel) h f count =
    match Readdir h f count with
    | Panic => None
    | Ret (f', (l, Some e)) => Some [(l, Some e)]
    | Ret (f', (l, None)) =>
        cons (l, None) <$> Readdir_until_error fuel h f' count
    end.
Proof. reflexivity. Qed.

Lemma Readdir_until_error_cursor h fi (count : Z) (fuel : nat) :
  (0 < count)%Z ->
  forall f l,
    h !! f_fileInfo f = Some fi -> f_readdir f = Some l ->
    length l < fuel ->
    exists pages last,
      Readdir_until_error fuel h f count = Some (pages ++ [last]) /\
      concat (page <$> pages) ++ page last = l /\
      Forall (fun r => r.2 = None /\ Z.of_nat (length (page r)) = count)
             pages /\
      last.2 = Some EOF /\ (Z.of_nat (length (page last)) < count)%Z.
Proof.
  intros Hc. induction fuel as [|fuel IH]; intros f l Hp Hl Hlen; [lia|].
  rewrite Readdir_until_error_unfold, (Readdir_cursor h f fi count l) by done.
  destruct (Z.leb_spec count (Z.of_nat (length l))) as [Hle|Hgt].
  - destruct (IH (set_readdir (Some (drop (Z.to_nat count) l)) f)
                 (drop (Z.to_nat count) l))
      as (pages & last & -> & Hcat & Hall & Heof & Hshort);
      [done | done | rewrite length_drop; lia |].
    exists ((Some (take (Z.to_nat count) l), None) :: pages), last.
    split; [done|]. split; [|split; [|done]].
    + rewrite fmap_cons. cbn [concat].
      replace (page (Some (take (Z.to_nat count) l), None))
        with (take (Z.to_nat count) l) by done.
      rewrite <- app_assoc, Hcat. apply take_drop.
    + constructor; [|done]. split; [done|].
      unfold page. simpl. rewrite length_take. lia.
  - exists [], (Some l, Some EOF). repeat split; done.
Qed.

(** C9. On a directory handle whose listing has not been started, for
    every [count > 0], repeating [Readdir(count)] until a call reports an
    error terminates (more calls than the directory has children are never
    needed); the pages, concatenated in order, are the sequence that a
    single [Readdir(0)] returns on a fresh handle for the same directory;
    every page but the last is full and comes with no error; the last page
    is short (fewer than [count] entries, possibly none) and is the only
    one that carries the end-of-listing signal. *)
Theorem Readdir_pagination h f fi (count : Z) (fuel : nat) (nm : string) :
  directory_handle h f fi -> f_readdir f = None -> (0 < count)%Z ->
  length (fileInfos fi) < fuel ->
  exists pages last,
    Readdir_until_error fuel h f count = Some (pages ++ [last]) /\
    Readdir h (openReader (f_fileInfo f) nm) 0
    = Ret (openReader (f_fileInfo f) nm,
           (Some (concat (page <$> pages) ++ page last), None)) /\
    Forall (fun r => r.2 = None /\ Z.of_nat (length (page r)) = count)
           pages /\
    last.2 = Some EOF /\ (Z.of_nat (length (page last)) < count)%Z.
Proof.
  intros Hdir Hl Hc Hfuel. destruct fuel as [|fuel]; [lia|].
  destruct (Readdir_until_error_cursor h fi count (S fuel) Hc
              (set_readdir (Some (fileInfos fi)) f) (fileInfos fi))
    as (pages & last & Hrun & Hcat & Hall & Heof & Hshort);
    [by destruct Hdir | done | done |].
  exists pages, last.
  split; [|split; [|done]].
  - rewrite Readdir_until_error_unfold, (Readdir_load h f fi) by done.
    by rewrite <- Readdir_until_error_unfold.
  - rewrite Hcat. apply Readdir_nonpositive; [|lia].
    destruct Hdir as [Hp Hd]. by split.
Qed.

Lemma Readdir_pagination_witness :
  let h := [ {| name := "a.txt"; zipFile := Some (mkFile "a.txt" 3);
                fileInfos := [] |};
             {| name := "b.txt"; zipFile := Some (mkFile "b.txt" 3);
                fileInfos := [] |};
             {| name := "c.txt"; zipFile := Some (mkFile "c.txt" 3);
                fileInfos := [] |};
             {| name := "/"; zipFile := None; fileInfos := [0; 1; 2] |} ]%nat in
  exists pages last,
    Readdir_until_error 4 h (openReader 3 "/") 2 = Some (pages ++ [last]) /\
    concat (page <$> pages) ++ page last = [0; 1; 2]%nat /\
    last.2 = Some EOF.
Proof.
  intros h.
  destruct (Readdir_pagination h (openReader 3 "/")
              {| name := "/"; zipFile := None; fileInfos := [0; 1; 2]%nat |}
              2 4 "/")
    as (pages & last & Hrun & H0 & _ & Heof & _);
    [by split | reflexivity | lia | simpl; lia |].
  exists pages, last. split; [exact Hrun|]. split; [|exact Heof].
  change (Readdir h (openReader (f_fileInfo (openReader 3 "/")) "/") 0)
    with (Ret (openReader 3 "/", (Some [0; 1; 2]%nat, @None error))) in H0.
  by injection H0 as <-.
Defined.

(** ** Handles: [Seek] and temporary files *)

Ltac unfold_M :=
  unfold createTempFile, fileReader_createTempFile, zipFile_Open,
    ioutil_TempFile, io_Copy, File_Seek, File_Close, File_Read, os_Remove,
    ReadCloser_Close, ReadCloser_Read, ext, ext_amount, get, put, panic,
    mbind, M_bind, mret, M_ret in *.

Ltac branch :=
  match goal with
  | |- context [match fails ?e ?k with _ => _ end] =>
      destruct (fails e k) eqn:?
  | |- context [decide ?P] => destruct (decide P)
  end.

Ltac finish :=
  eexists _, _; (split; [reflexivity|]); simpl;
  repeat split; intros; subst; simpl in *;
  try lia; try congruence;
  try (exfalso;
       match goal with Hn : _ ∉ _ :: _ |- _ => apply Hn; constructor end).

(** [createTempFile] on an archive record: it returns; it creates at most
    one temporary file; it hands a file back only without an error and
    only after creating one; when no external call fails it hands one
    back. *)
Lemma createTempFile_spec env zf w :
  exists r w',
    createTempFile env (Some zf) w = Ret (r, w') /\
    created w <= created w' <= S (created w) /\
    (forall t, r.1 = Some t -> r.2 = None /\ created w' = S (created w)) /\
    (r.1 = None -> r.2 <> None) /\
    ((forall k, fails env k = None) -> r.1 <> None).
Proof.
  unfold_M. simpl.
  repeat (branch; simpl).
  all: finish.
Qed.








(** ** The archive index: trailing slashes *)

Lemma in_cutset_slash c : in_cutset c "/" = Ascii.eqb c slash.
Proof. unfold in_cutset. simpl. apply orb_false_r. Qed.

Lemma HasSuffix_slash s : HasSuffix s "/" = ends_in_slash s.
Proof.
  unfold HasSuffix. induction s as [|c r IH]; [reflexivity|].
  destruct r as [|c' r'].
  - simpl. unfold slash. by destruct (Ascii.eqb c "/").
  - change (ends_in_slash (String c (String c' r')))
      with (ends_in_slash (String c' r')).
    rewrite <- IH. simpl. by rewrite Nat.sub_0_r.
Qed.

Lemma TrimRight_cons c r :
  TrimRight (String c r) "/" =
    match TrimRight r "/" with
    | EmptyString => if Ascii.eqb c slash then EmptyString else String c EmptyString
    | r' => String c r'
    end.
Proof. cbn [TrimRight]. by rewrite in_cutset_slash. Qed.

Lemma TrimRight_no_slash s : ends_in_slash (TrimRight s "/") = false.
Proof.
  induction s as [|c r IH]; [done|].
  rewrite TrimRight_cons.
  destruct (TrimRight r "/") as [|c' r'] eqn:E.
  - destruct (Ascii.eqb c slash) eqn:Ec; simpl; [done|]. by rewrite Ec.
  - exact IH.
Qed.

Lemma TrimRight_fixed s : ends_in_slash s = false -> TrimRight s "/" = s.
Proof.
  induction s as [|c r IH]; [done|]. intros H.
  rewrite TrimRight_cons. destruct r as [|c' r'].
  - simpl in *. by rewrite H.
  - rewrite IH by exact H. done.
Qed.

Lemma TrimRight_idem s : TrimRight (TrimRight s "/") "/" = TrimRight s "/".
Proof. apply TrimRight_fixed, TrimRight_no_slash. Qed.

Lemma ends_in_slash_append s : ends_in_slash (s +:+ "/") = true.
Proof.
  induction s as [|c r IH]; [done|].
  simpl. destruct (r +:+ "/") eqn:E; [by destruct r|]. exact IH.
Qed.

Lemma parentDirName_slash nm : ends_in_slash (parentDirName nm) = true.
Proof.
  unfold parentDirName. case_decide; [done|].
  destruct (HasSuffix _ "/") eqn:E; simpl.
  - by rewrite <- HasSuffix_slash.
  - apply ends_in_slash_append.
Qed.

Lemma parentDirName_TrimRight nm :
  parentDirName (TrimRight nm "/") = parentDirName nm.
Proof. unfold parentDirName. by rewrite TrimRight_idem. Qed.

Lemma parentDirName_not_stripped nm x : parentDirName nm <> TrimRight x "/".
Proof.
  intros E. assert (H := parentDirName_slash nm).
  rewrite E, TrimRight_no_slash in H. done.
Qed.

(** ** The index built by [New] *)

Lemma FindOrCreate_cases fm h nm p fm' h' :
  FindOrCreate fm h nm = (p, (fm', h')) ->
  (fm !! nm = Some p /\ fm' = fm /\ h' = h) \/
  (fm !! nm = None /\ p = length h /\ h' = h ++ [mkNode nm] /\
   fm' = add_keys fm nm p).
Proof.
  unfold FindOrCreate, add_keys. destruct (fm !! nm) as [q|] eqn:E.
  - intros [= <- <- <-]. by left.
  - intros [= <- <- <-]. right. done.
Qed.

Lemma add_keys_lookup fm nm n k :
  add_keys fm nm n !! k =
    if decide (k = nm \/ k = TrimRight nm "/") then Some n else fm !! k.
Proof.
  unfold add_keys. case_decide as Hs.
  - rewrite lookup_insert. repeat case_decide; intuition congruence.
  - rewrite !lookup_insert. repeat case_decide; intuition congruence.
Qed.

Lemma add_keys_slash fm nm n k p :
  fm !! nm = None -> fm !! k = Some p -> ends_in_slash k = true ->
  add_keys fm nm n !! k = Some p.
Proof.
  intros Hnone Hk Hs. rewrite add_keys_lookup.
  case_decide as Hd; [|done]. destruct Hd as [->| ->].
  - congruence.
  - by rewrite TrimRight_no_slash in Hs.
Qed.

Lemma index_inv_seen seen seen' linked fm h :
  index_inv seen linked fm h -> seen ⊆ seen' -> index_inv seen' linked fm h.
Proof.
  intros [] Hsub. split; try done.
  - intros p fi zf Hp Hz. destruct (inv_record0 p fi zf Hp Hz). split; auto.
  - intros p fi Hp. destruct (inv_name0 p fi Hp) as (zf & Hin & Hn). eauto.
Qed.

Lemma index_inv_create seen linked fm h nm :
  index_inv seen linked fm h -> fm !! nm = None ->
  (exists zf, zf ∈ seen /\
     (nm = zip.Name zf \/ nm = parentDirName (zip.Name zf))) ->
  index_inv seen linked (add_keys fm nm (length h)) (h ++ [mkNode nm]).
Proof.
  intros [] Hnone Hnm.
  assert (Hold : forall q fi, h !! q = Some fi ->
                              (h ++ [mkNode nm]) !! q = Some fi).
  { intros q fi Hq. rewrite lookup_app_l; [done|]. by eapply lookup_lt_Some. }
  assert (Hnew : forall q fi, (h ++ [mkNode nm]) !! q = Some fi ->
                   h !! q = Some fi \/ (q = length h /\ fi = mkNode nm)).
  { intros q fi Hq. apply lookup_snoc_Some in Hq.
    destruct Hq as [[_ Hq]|[-> <-]]; auto. }
  split.
  - intros k p. rewrite add_keys_lookup. case_decide as Hd.
    + intros [= <-]. exists (mkNode nm). split.
      * by rewrite lookup_app_r, Nat.sub_diag.
      * simpl. destruct Hd as [->| ->]; [done|apply TrimRight_idem].
    + intros Hk. destruct (inv_key0 k p Hk) as (fi & Hp & Ht). eauto.
  - intros p fi q Hp Hq. destruct (Hnew p fi Hp) as [Hp'|[-> ->]].
    + destruct (inv_child0 p fi q Hp' Hq) as (fq & Hfq & Hpar).
      exists fq. split; [auto|].
      apply add_keys_slash; [done..|apply parentDirName_slash].
    + simpl in Hq. by apply elem_of_nil in Hq.
  - intros p. rewrite !add_keys_lookup.
    case_decide as Hd; [intros [= <-]|].
    + destruct Hd as [<-|Hd].
      * rewrite decide_True; [eauto|]. by right.
      * assert (Hs := TrimRight_no_slash nm). by rewrite <- Hd in Hs.
    + intros Hp. case_decide; [eauto|]. eauto.
  - intros Hns p. rewrite !add_keys_lookup.
    assert (Hns' : forall p fi, h !! p = Some fi ->
                     TrimRight (name fi) "/" = "" -> name fi = "/") by eauto.
    case_decide as Hd; [intros [= <-]|].
    + destruct Hd as [<-|Hd].
      * rewrite decide_True; [eauto|]. by right.
      * assert (Hs := TrimRight_no_slash nm). by rewrite <- Hd in Hs.
    + intros Hp. specialize (inv_alias0 Hns' p Hp).
      case_decide as Hd'; [|done]. destruct Hd' as [<-|Hd'].
      * congruence.
      * exfalso. apply Hd. left. symmetry.
        apply (Hns (length h) (mkNode nm)); [|done].
        by rewrite lookup_app_r, Nat.sub_diag.
  - intros zf Hin.
    destruct (inv_linked0 zf Hin) as (p & fi & q & fq & Hk & Hp & Hq & Hfq & Ht).
    exists p, fi, q, fq. repeat split; auto.
    apply add_keys_slash; [done..|apply parentDirName_slash].
  - intros p fi zf Hp Hz. destruct (Hnew p fi Hp) as [Hp'|[-> ->]]; [eauto|done].
  - intros p fi Hp. destruct (Hnew p fi Hp) as [Hp'|[-> ->]]; [eauto|done].
Qed.

Lemma index_inv_alter seen linked fm h (g : fileInfo -> fileInfo) (p : ptr) :
  index_inv seen linked fm h ->
  (forall fi, name (g fi) = name fi) ->
  (forall fi q, h !! p = Some fi -> q ∈ fileInfos fi -> q ∈ fileInfos (g fi)) ->
  (forall fi q, h !! p = Some fi -> q ∈ fileInfos (g fi) ->
     q ∈ fileInfos fi \/
     exists fq, h !! q = Some fq /\ fm !! parentDirName (name fq) = Some p) ->
  (forall fi zf, h !! p = Some fi -> zipFile (g fi) = Some zf ->
     zipFile fi = Some zf \/
     (zf ∈ seen /\ TrimRight (zip.Name zf) "/" = TrimRight (name fi) "/")) ->
  index_inv seen linked fm (alter g p h).
Proof.
  intros [] Hname Hmono Hchild Hrec.
  assert (Hfw : forall q fi, h !! q = Some fi ->
            exists fi', alter g p h !! q = Some fi' /\ name fi' = name fi /\
                        (forall x, x ∈ fileInfos fi -> x ∈ fileInfos fi')).
  { intros q fi Hq. destruct (decide (p = q)) as [->|Hne].
    - exists (g fi). rewrite list_lookup_alter_eq, Hq. eauto.
    - exists fi. rewrite list_lookup_alter_ne by done. eauto. }
  assert (Hbw : forall q fi', alter g p h !! q = Some fi' ->
            exists fi, h !! q = Some fi /\ name fi' = name fi /\
                       (q = p /\ fi' = g fi \/ q <> p /\ fi' = fi)).
  { intros q fi' Hq. destruct (decide (p = q)) as [->|Hne].
    - rewrite list_lookup_alter_eq in Hq.
      apply fmap_Some in Hq as (fi & Hfi & ->). eauto 6.
    - rewrite list_lookup_alter_ne in Hq by done. eauto 6. }
  split.
  - intros k q Hk. destruct (inv_key0 k q Hk) as (fi & Hq & Ht).
    destruct (Hfw q fi Hq) as (fi' & Hq' & Hn & _).
    exists fi'. by rewrite Hn.
  - intros q fi' x Hq Hx.
    destruct (Hbw q fi' Hq) as (fi & Hq0 & Hn & [[-> ->]|[Hne ->]]).
    + destruct (Hchild fi x Hq0 Hx) as [Hx0|(fq & Hfq & Hpar)].
      * destruct (inv_child0 p fi x Hq0 Hx0) as (fq & Hfq & Hpar).
        destruct (Hfw x fq Hfq) as (fq' & Hfq' & Hn' & _).
        exists fq'. by rewrite Hn'.
      * destruct (Hfw x fq Hfq) as (fq' & Hfq' & Hn' & _).
        exists fq'. by rewrite Hn'.
    + destruct (inv_child0 q fi x Hq0 Hx) as (fq & Hfq & Hpar).
      destruct (Hfw x fq Hfq) as (fq' & Hfq' & Hn' & _).
      exists fq'. by rewrite Hn'.
  - done.
  - intros Hns. apply inv_alias0. intros q fi Hq Ht.
    destruct (Hfw q fi Hq) as (fi' & Hq' & Hn & _).
    rewrite <- Hn in *. eauto.
  - intros zf Hin.
    destruct (inv_linked0 zf Hin) as (q & fi & x & fx & Hk & Hq & Hx & Hfx & Ht).
    destruct (Hfw q fi Hq) as (fi' & Hq' & Hn & Hsub).
    destruct (Hfw x fx Hfx) as (fx' & Hfx' & Hnx & _).
    exists q, fi', x, fx'. rewrite Hnx. auto 6.
  - intros q fi' zf Hq Hz.
    destruct (Hbw q fi' Hq) as (fi & Hq0 & Hn & [[-> ->]|[Hne ->]]).
    + rewrite Hn. destruct (Hrec fi zf Hq0 Hz) as [Hz0|?]; eauto.
    + eauto.
  - intros q fi' Hq.
    destruct (Hbw q fi' Hq) as (fi & Hq0 & Hn & _). rewrite Hn. eauto.
Qed.

Lemma index_inv_link seen linked fm h zf p fi q fq :
  index_inv seen linked fm h ->
  fm !! parentDirName (zip.Name zf) = Some p -> h !! p = Some fi ->
  q ∈ fileInfos fi -> h !! q = Some fq ->
  TrimRight (name fq) "/" = TrimRight (zip.Name zf) "/" ->
  index_inv seen (zf :: linked) fm h.
Proof.
  intros [] Hk Hp Hq Hfq Ht. split; try done.
  intros zf' [->|Hin]%elem_of_cons; [|auto].
  exists p, fi, q, fq. auto.
Qed.

Lemma index_inv_FindOrCreate seen linked fm h nm p fm' h' :
  index_inv seen linked fm h ->
  (exists zf, zf ∈ seen /\
     (nm = zip.Name zf \/ nm = parentDirName (zip.Name zf))) ->
  FindOrCreate fm h nm = (p, (fm', h')) ->
  index_inv seen linked fm' h' /\
  fm' !! nm = Some p /\
  (exists fi, h' !! p = Some fi /\ TrimRight (name fi) "/" = TrimRight nm "/") /\
  (forall q fi, h !! q = Some fi -> h' !! q = Some fi).
Proof.
  intros Hinv Hnm [(Hk & -> & ->)|(Hnone & -> & -> & ->)]%FindOrCreate_cases.
  - split; [done|]. split; [done|]. split; [|done].
    destruct (inv_key _ _ _ _ Hinv nm p Hk) as (fi & Hp & Ht). eauto.
  - split; [by apply index_inv_create|]. split; [|split].
    + rewrite add_keys_lookup. rewrite decide_True; [done|by left].
    + exists (mkNode nm). split; [|done]. by rewrite lookup_app_r, Nat.sub_diag.
    + intros q fi Hq. rewrite lookup_app_l; [done|]. by eapply lookup_lt_Some.
Qed.

Lemma parentDirName_same a b :
  TrimRight a "/" = TrimRight b "/" -> parentDirName a = parentDirName b.
Proof. unfold parentDirName. by intros ->. Qed.

Lemma index_inv_New_entry files fm h zf :
  index_inv files files fm h ->
  index_inv (zf :: files) (zf :: files) (New_entry (fm, h) zf).1
            (New_entry (fm, h) zf).2.
Proof.
  intros Hinv. unfold New_entry, FindOrCreateParent. simpl.
  destruct (FindOrCreate fm h (zip.Name zf)) as [fi [fm1 h1]] eqn:E1.
  apply index_inv_seen with (seen' := zf :: files) in Hinv;
    [|intros x Hx; apply elem_of_cons; by right].
  destruct (index_inv_FindOrCreate _ _ _ _ _ _ _ _ Hinv
              ltac:(exists zf; split; [left|by left]) E1)
    as (Hinv1 & Hk1 & (f1 & Hp1 & Ht1) & _).
  set (h2 := alter (set_zipFile zf) fi h1).
  assert (Hinv2 : index_inv (zf :: files) files fm1 h2).
  { apply index_inv_alter; try done.
    - auto.
    - intros f0 z Hf0 [= <-]. right. split; [left|].
      rewrite Hp1 in Hf0. injection Hf0 as <-. done. }
  assert (Hp2 : exists f2, h2 !! fi = Some f2 /\
                  TrimRight (name f2) "/" = TrimRight (zip.Name zf) "/").
  { exists (set_zipFile zf f1). split; [|done].
    unfold h2. by rewrite list_lookup_alter_eq, Hp1. }
  destruct Hp2 as (f2 & Hp2 & Ht2).
  destruct (FindOrCreate fm1 h2 (parentDirName (zip.Name zf)))
    as [pp [fm3 h3]] eqn:E3.
  destruct (index_inv_FindOrCreate _ _ _ _ _ _ _ _ Hinv2
              ltac:(exists zf; split; [left|by right]) E3)
    as (Hinv3 & Hk3 & (f3 & Hp3 & Ht3) & Hkeep).
  simpl.
  set (g := fun p => set_fileInfos (fileInfos p ++ [fi]) p).
  assert (Hinv4 : index_inv (zf :: files) files fm3 (alter g pp h3)).
  { apply index_inv_alter; try done.
    - intros f0 q _ Hq. simpl. apply elem_of_app. by left.
    - intros f0 q _ [Hq|Hq%list_elem_of_singleton]%elem_of_app; [by left|].
      subst q. right. exists f2. split; [by apply Hkeep|].
      by rewrite (parentDirName_same _ _ Ht2).
    - auto. }
  assert (Hfq : exists fq, alter g pp h3 !! fi = Some fq /\
                  TrimRight (name fq) "/" = TrimRight (zip.Name zf) "/").
  { destruct (decide (pp = fi)) as [->|Hne].
    - exists (g f2). by rewrite list_lookup_alter_eq, (Hkeep _ _ Hp2).
    - exists f2. rewrite list_lookup_alter_ne by done. auto. }
  destruct Hfq as (fq & Hfq & Htq).
  apply index_inv_link with (p := pp) (fi := g f3) (q := fi) (fq := fq);
    try done.
  - by rewrite list_lookup_alter_eq, Hp3.
  - simpl. apply elem_of_app. right. by apply list_elem_of_singleton.
Qed.

(** ** [path.Clean] never ends in a slash, the root apart *)

Lemma head_ok_cons rooted c l : c <> slash -> head_ok rooted (c :: l).
Proof. intros Hc. destruct l; simpl; auto. Qed.

Lemma head_ok_push rooted c l :
  head_ok rooted (c :: l) -> 2 <= length (c :: l) \/ rooted = false ->
  c <> slash.
Proof.
  destruct l as [|c' l]; simpl; [|done].
  intros [->|Hc] [Hl| Hr]; try done; lia.
Qed.

Lemma no_double_slash_cons c l :
  (c <> slash \/ match l with c2 :: _ => c2 <> slash | [] => True end) ->
  no_double_slash l -> no_double_slash (c :: l).
Proof. intros Hc Hl. split; [|done]. destruct l; [done|]. tauto. Qed.

Lemma no_double_slash_app cs l :
  Forall (fun c => c <> slash) cs -> no_double_slash l ->
  no_double_slash (cs ++ l).
Proof.
  induction 1 as [|c cs Hc _ IH]; intros Hl; [done|].
  simpl. apply no_double_slash_cons; auto.
Qed.

Lemma clean_backtrack_spec rooted pre base dropped :
  no_double_slash (dropped :: pre ++ base) -> head_ok rooted base ->
  exists pre',
    clean_backtrack (pre ++ base) (length base) dropped = pre' ++ base /\
    no_double_slash (pre' ++ base) /\ head_ok rooted (pre' ++ base).
Proof.
  revert dropped. induction pre as [|c pre IH]; intros dropped Hn Hb.
  - exists []. simpl. destruct Hn as [_ Hn]. split; [|done].
    destruct base as [|b base]; [done|].
    cbn [clean_backtrack]. by rewrite Nat.ltb_irrefl.
  - cbn [clean_backtrack app].
    replace (length base <? length (c :: pre ++ base)) with true
      by (symmetry; apply Nat.ltb_lt; simpl; rewrite length_app; lia).
    destruct (Ascii.eqb_spec dropped slash) as [->|Hd]; simpl.
    + exists (c :: pre). destruct Hn as [Hc Hn]. split; [done|]. split; [done|].
      apply head_ok_cons. intros Hcs. apply Hc. by split.
    + destruct Hn as [_ Hn]. destruct (IH c Hn Hb) as (pre' & E & Hn' & Hh').
      eauto.
Qed.

Lemma clean_copy_spec r out :
  exists cs, (clean_copy r out).2 = cs ++ out /\
             Forall (fun c => c <> slash) cs /\
             (match r with c :: _ => c <> slash -> cs <> [] | [] => True end).
Proof.
  revert out. induction r as [|c r IH]; intros out.
  - by exists [].
  - cbn [clean_copy]. destruct (Ascii.eqb_spec c slash) as [->|Hc].
    + by exists [].
    + destruct (IH (c :: out)) as (cs & E & Hcs & _).
      exists (cs ++ [c]). rewrite E, <- app_assoc. split; [done|]. split.
      * apply Forall_app. split; [done|]. by constructor.
      * intros _. by destruct cs.
Qed.

Lemma clean_loop_ok rooted fuel : forall r pre base,
  no_double_slash (pre ++ base) -> head_ok rooted (pre ++ base) ->
  head_ok rooted base -> (rooted = true -> 1 <= length base) ->
  head_ok rooted (clean_loop fuel rooted r (pre ++ base) (length base)).
Proof.
  induction fuel as [|fuel IH]; intros r pre base Hn Hh Hb Hr; [done|].
  cbn [clean_loop]. destruct r as [|c r1]; [done|].
  destruct (Ascii.eqb_spec c slash) as [->|Hc]; [by apply IH|].
  match goal with |- context [if ?b then _ else _] => destruct b end;
    [by apply IH|].
  match goal with |- context [if ?b then _ else _] => destruct b end.
  - destruct (length base <? length (pre ++ base)) eqn:Hlt.
    + destruct pre as [|d pre].
      { apply Nat.ltb_lt in Hlt. simpl in Hlt. lia. }
      cbn [app]. destruct Hn as [Hd Hn].
      destruct (clean_backtrack_spec rooted pre base d) as (pre' & -> & ? & ?);
        [by split|done|]. by apply IH.
    + destruct rooted; simpl; [by apply IH|].
      set (out1 := if 0 <? length (pre ++ base) then slash :: pre ++ base
                   else pre ++ base).
      assert (H1 : no_double_slash out1).
      { unfold out1. destruct (pre ++ base) as [|x l] eqn:E; [done|].
        change (no_double_slash (slash :: x :: l)).
        apply no_double_slash_cons; [|done]. right.
        apply (head_ok_push false x l); auto. }
      assert (Hdot : dot <> slash) by discriminate.
      apply (IH _ [] (dot :: dot :: out1)); [| by simpl..].
      cbn [app]. do 2 (apply no_double_slash_cons; [by left|]). done.
  - set (out1 := if rooted && negb (length (pre ++ base) =? 1)
                    || negb rooted && negb (length (pre ++ base) =? 0)
                 then slash :: pre ++ base else pre ++ base).
    assert (H1 : exists pre1, out1 = pre1 ++ base /\ no_double_slash out1).
    { unfold out1.
      match goal with |- context [if ?b then _ else _] => destruct b eqn:Eb end;
        [|by exists pre].
      exists (slash :: pre). split; [done|].
      destruct (pre ++ base) as [|x l] eqn:E; [done|].
      apply no_double_slash_cons; [|done]. right.
      apply (head_ok_push rooted x l); [done|].
      rewrite ?E in Eb. destruct rooted; [left|by right].
      destruct l as [|y l']; [simpl in Eb; discriminate|simpl; lia]. }
    destruct H1 as (pre1 & E1 & Hn1).
    destruct (clean_copy (c :: r1) out1) as [r2 out2] eqn:Ecp.
    destruct (clean_copy_spec (c :: r1) out1) as (cs & E2 & Hcs & Hne).
    rewrite Ecp in E2. simpl in E2. subst out2. rewrite E1, app_assoc.
    apply IH; try done.
    + rewrite <- app_assoc, <- E1. by apply no_double_slash_app.
    + rewrite <- app_assoc, <- E1. destruct cs as [|x cs]; [by destruct Hne|].
      apply head_ok_cons. by inversion Hcs.
Qed.

Lemma ends_in_slash_snoc (l : list ascii) (c : ascii) :
  ends_in_slash (string_of_list_ascii (l ++ [c])) = Ascii.eqb c slash.
Proof.
  induction l as [|x l IH]; [done|]. simpl.
  destruct (string_of_list_ascii (l ++ [c])) eqn:E; [by destruct l|done].
Qed.

Lemma path_Clean_slash s :
  ends_in_slash (path_Clean s) = true -> path_Clean s = "/".
Proof.
  unfold path_Clean. destruct (list_ascii_of_string s) as [|c rest]; [done|].
  set (rooted := Ascii.eqb c slash).
  set (out := if rooted then _ else _).
  assert (Hh : head_ok rooted out).
  { unfold out. destruct rooted eqn:Er.
    - apply (clean_loop_ok true _ rest [] [slash]); simpl; auto.
    - apply (clean_loop_ok false _ (c :: rest) [] []); simpl; auto.
      discriminate. }
  clearbody out. destruct out as [|x out]; [done|].
  simpl rev. rewrite ends_in_slash_snoc.
  intros Hx. apply Ascii.eqb_eq in Hx. subst x.
  destruct out as [|y out]; [done|]. simpl in Hh. done.
Qed.

Lemma TrimRight_append_slash s : TrimRight (s +:+ "/") "/" = TrimRight s "/".
Proof.
  induction s as [|c r IH]; [done|].
  change (String c r +:+ "/") with (String c (r +:+ "/")).
  by rewrite !TrimRight_cons, IH.
Qed.

Lemma parentDirName_root_or_named nm :
  parentDirName nm = "/" \/ TrimRight (parentDirName nm) "/" <> "".
Proof.
  unfold parentDirName. case_decide; [by left|].
  destruct (HasSuffix _ "/") eqn:E; simpl; rewrite HasSuffix_slash in E.
  - left. by apply path_Clean_slash.
  - rewrite TrimRight_append_slash, (TrimRight_fixed _ E).
    destruct (path_Dir _) eqn:Ed; [by left|by right].
Qed.

Lemma index_inv_linked seen linked linked' fm h :
  index_inv seen linked fm h -> linked' ⊆ linked ->
  index_inv seen linked' fm h.
Proof. intros [] Hsub. split; auto. Qed.

Lemma index_inv_empty : index_inv [] [] ∅ [].
Proof.
  split; try done.
  - intros zf Hin. by apply elem_of_nil in Hin.
Qed.

Lemma index_inv_entries files : forall acc fm h,
  index_inv acc acc fm h ->
  index_inv (reverse files ++ acc) (reverse files ++ acc)
            (fold_left New_entry files (fm, h)).1
            (fold_left New_entry files (fm, h)).2.
Proof.
  induction files as [|zf files IH]; intros acc fm h Hinv; [done|].
  cbn [fold_left]. rewrite reverse_cons, <- app_assoc. cbn [app].
  destruct (New_entry (fm, h) zf) as [fm1 h1] eqn:E.
  apply IH. apply (index_inv_New_entry _ _ _ zf) in Hinv.
  by rewrite E in Hinv.
Qed.

Lemma elem_of_sort_insert less x l q :
  q ∈ sort_insert less x l <-> q = x \/ q ∈ l.
Proof.
  induction l as [|y l IH]; simpl.
  - rewrite list_elem_of_singleton, elem_of_nil. tauto.
  - destruct (less y x); rewrite !elem_of_cons; [rewrite IH|]; tauto.
Qed.

Lemma elem_of_sort_Sort less l q : q ∈ sort_Sort less l <-> q ∈ l.
Proof.
  unfold sort_Sort. induction l as [|x l IH]; simpl; [done|].
  rewrite elem_of_sort_insert, elem_of_cons, IH. tauto.
Qed.

Lemma index_inv_New_sort seen linked fm h p :
  index_inv seen linked fm h -> index_inv seen linked fm (New_sort h p).
Proof.
  intros Hinv. unfold New_sort. apply index_inv_alter; try done.
  - intros fi. by destruct (1 <? length (fileInfos fi)).
  - intros fi q _ Hq. destruct (1 <? length (fileInfos fi)); [|done].
    by apply elem_of_sort_Sort.
  - intros fi q _ Hq. left. destruct (1 <? length (fileInfos fi)); [|done].
    by apply elem_of_sort_Sort in Hq.
  - intros fi zf _ Hz. left. by destruct (1 <? length (fileInfos fi)).
Qed.

Lemma index_inv_sorted seen linked fm (ps : list ptr) : forall h,
  index_inv seen linked fm h ->
  index_inv seen linked fm (fold_left New_sort ps h).
Proof.
  induction ps as [|p ps IH]; intros h Hinv; [done|].
  simpl. by apply IH, index_inv_New_sort.
Qed.

Lemma New_index_inv open nm fs :
  New open nm = (Some fs, None) ->
  exists files fm,
    open nm = inr files /\ fs_fileInfos fs = Some fm /\
    readerAt fs = Some nm /\
    index_inv files files fm (store fs).
Proof.
  unfold New. destruct (open nm) as [err|files]; [done|].
  destruct (fold_left New_entry files (∅, [])) as [fm h] eqn:E.
  intros [= <-]. exists files, fm. simpl. do 3 (split; [done|]).
  apply index_inv_sorted.
  assert (H := index_inv_entries files [] ∅ [] index_inv_empty).
  rewrite E, app_nil_r in H. simpl in H.
  apply index_inv_seen with (seen := reverse files);
    [|intros x; by rewrite elem_of_reverse].
  apply index_inv_linked with (linked := reverse files);
    [done|intros x; by rewrite elem_of_reverse].
Qed.

Lemma Open_root fs p :
  readerAt fs <> None -> default ∅ (fs_fileInfos fs) !! "" = Some p ->
  Open fs "/" = (Some (openReader p "/"), None).
Proof.
  intros Hr Hk. unfold Open, openFileInfo.
  destruct (readerAt fs); [|done].
  change (TrimLeft (path_Clean "/") "/") with "". by rewrite Hk.
Qed.

Lemma parentDirName_of_slashes nm :
  TrimRight nm "/" = "" -> parentDirName nm = "/".
Proof. unfold parentDirName. by intros ->. Qed.

Lemma Open_root_inv fs f :
  Open fs "/" = (Some f, None) ->
  exists p, default ∅ (fs_fileInfos fs) !! "" = Some p.
Proof.
  unfold Open, openFileInfo. destruct (readerAt fs); [|done].
  change (TrimLeft (path_Clean "/") "/") with "".
  destruct (default ∅ (fs_fileInfos fs) !! "") as [p|]; [by exists p|done].
Qed.

(** C1 (counterexample). [New] creates the immediate parent of each entry
    and nothing above it, and creates no root of its own: the empty archive
    has no root, and neither has the archive whose only entry is
    [a/b/c.txt], where moreover the synthesised directory [a/b/] is listed
    by no node at all. And what [Open("/")] reaches need not be a
    directory: in the archive that lists the file [x] and then a file
    with the empty name, it is a node that carries the record of the
    latter. *)
Lemma New_no_root_no_grandparent :
  (exists fs,
     New (archive []) "x.zip" = (Some fs, None) /\
     Open fs "/" = (None, Some (PathError "Open" "/" ErrNotExist))) /\
  (exists fs p fi,
     New (archive [mkFile "a/b/c.txt" 3]) "x.zip" = (Some fs, None) /\
     Open fs "/" = (None, Some (PathError "Open" "/" ErrNotExist)) /\
     default ∅ (fs_fileInfos fs) !! "a/b" = Some p /\
     store fs !! p = Some fi /\ name fi = "a/b/" /\
     forall q fq, store fs !! q = Some fq -> p ∉ fileInfos fq) /\
  (exists fs p fi,
     New (archive [mkFile "x" 3; mkFile "" 3]) "x.zip" = (Some fs, None) /\
     Open fs "/" = (Some (openReader p "/"), None) /\
     store fs !! p = Some fi /\ zipFile fi = Some (mkFile "" 3) /\
     IsDir fi = false /\ Mode fi = 292%Z).
Proof.
  split; [|split].
  - eexists. split; vm_compute; reflexivity.
  - eexists _, _, _. do 5 (split; [vm_compute; reflexivity|]).
    intros q fq Hq Hin.
    destruct q as [|[|q]]; cbn in Hq; try discriminate;
      injection Hq as <-; cbn in Hin.
    + by apply elem_of_nil in Hin.
    + apply list_elem_of_singleton in Hin. discriminate.
  - eexists _, _, _. do 5 (split; [vm_compute; reflexivity|]).
    vm_compute; reflexivity.
Qed.

(** C1 (amended). For every archive, after [New] succeeds:
    - every entry of the archive's entry list has a node in the child list
      of the index entry under the key of its immediate parent directory,
      that parent being created implicitly (no archive record) when the
      entry list does not mention it;
    - no node is in the child lists of two different nodes;
    - [Open("/")] succeeds exactly when the archive lists a top-level
      entry (one whose parent key is ["/"]): an archive that is empty or
      lists only nested entries has no root;
    - when the archive lists a top-level entry and every entry name has a
      byte other than a slash, what [Open("/")] reaches is the root
      directory: the synthesised node ["/"], without archive record,
      a directory of mode [0555 | ModeDir], and the parent of every
      top-level entry. *)
Theorem New_links_entries_to_parents open nm fs :
  New open nm = (Some fs, None) ->
  exists files,
    open nm = inr files /\
    (forall zf, zf ∈ files ->
       exists p fi, has_parent fs zf p /\ store fs !! p = Some fi /\
         ((forall zf', zf' ∈ files ->
             TrimRight (zip.Name zf') "/"
             <> TrimRight (parentDirName (zip.Name zf)) "/") ->
          zipFile fi = None)) /\
    (forall p1 p2 fi1 fi2 q,
       store fs !! p1 = Some fi1 -> q ∈ fileInfos fi1 ->
       store fs !! p2 = Some fi2 -> q ∈ fileInfos fi2 -> p1 = p2) /\
    (root_reachable fs <->
     exists zf, zf ∈ files /\ parentDirName (zip.Name zf) = "/") /\
    ((exists zf, zf ∈ files /\ parentDirName (zip.Name zf) = "/") ->
     (forall zf, zf ∈ files -> TrimRight (zip.Name zf) "/" <> "") ->
     exists p fi,
       Open fs "/" = (Some (openReader p "/"), None) /\
       default ∅ (fs_fileInfos fs) !! "/" = Some p /\
       store fs !! p = Some fi /\ name fi = "/" /\ zipFile fi = None /\
       IsDir fi = true /\ Mode fi = Z.lor 365 ModeDir /\
       forall zf, zf ∈ files -> parentDirName (zip.Name zf) = "/" ->
                  has_parent fs zf p).
Proof.
  intros (files & fm & Hopen & Hfm & Hrd & Hinv)%New_index_inv.
  assert (Hrd' : readerAt fs <> None) by (by rewrite Hrd).
  exists files. split; [done|]. split; [|split; [|split]].
  - intros zf Hin.
    destruct (inv_linked _ _ _ _ Hinv zf Hin)
      as (p & fi & q & fq & Hk & Hp & Hq & Hfq & Ht).
    exists p, fi. split; [|split; [done|]].
    + exists fi, q, fq. by rewrite Hfm.
    + intros Hno. destruct (zipFile fi) as [z|] eqn:Hz; [|done].
      destruct (inv_record _ _ _ _ Hinv p fi z Hp Hz) as [Hzin Hzt].
      destruct (inv_key _ _ _ _ Hinv _ _ Hk) as (fi' & Hp' & Hkt).
      rewrite Hp in Hp'. injection Hp' as <-.
      destruct (Hno z Hzin). congruence.
  - intros p1 p2 fi1 fi2 q Hp1 Hq1 Hp2 Hq2.
    destruct (inv_child _ _ _ _ Hinv p1 fi1 q Hp1 Hq1) as (fq & Hfq & Hk1).
    destruct (inv_child _ _ _ _ Hinv p2 fi2 q Hp2 Hq2) as (fq' & Hfq' & Hk2).
    congruence.
  - split.
    + intros [f (p & Hk)%Open_root_inv]. rewrite Hfm in Hk. simpl in Hk.
      destruct (inv_key _ _ _ _ Hinv _ _ Hk) as (fi & Hp & Hkt).
      change (TrimRight "" "/") with "" in Hkt.
      destruct (inv_name _ _ _ _ Hinv p fi Hp) as (zf & Hin & [Hn|Hn]);
        exists zf; (split; [done|]).
      * apply parentDirName_of_slashes. by rewrite <- Hn.
      * destruct (parentDirName_root_or_named (zip.Name zf)) as [E|E];
          [done|]. destruct E. by rewrite <- Hn.
    + intros (zf0 & Hin0 & Hpar0).
      destruct (inv_linked _ _ _ _ Hinv zf0 Hin0)
        as (p & fi & q & fq & Hk & Hp & Hq & Hfq & Ht).
      rewrite Hpar0 in Hk.
      destruct (inv_root _ _ _ _ Hinv p Hk) as [p' Hp'].
      exists (openReader p' "/"). apply Open_root; [done|]. by rewrite Hfm.
  - intros (zf0 & Hin0 & Hpar0) Hnames.
    destruct (inv_linked _ _ _ _ Hinv zf0 Hin0)
      as (p & fi & q & fq & Hk & Hp & Hq & Hfq & Ht).
    rewrite Hpar0 in Hk.
    assert (Hns : forall p fi, store fs !! p = Some fi ->
                    TrimRight (name fi) "/" = "" -> name fi = "/").
    { intros p' fi' Hp' Hempty.
      destruct (inv_name _ _ _ _ Hinv p' fi' Hp') as (zf & Hin & [Hn|Hn]).
      - destruct (Hnames zf Hin). by rewrite <- Hn.
      - destruct (parentDirName_root_or_named (zip.Name zf)) as [E|E];
          congruence. }
    assert (Halias := inv_alias _ _ _ _ Hinv Hns p Hk).
    destruct (inv_key _ _ _ _ Hinv _ _ Hk) as (fi' & Hp' & Hkt).
    rewrite Hp in Hp'. injection Hp' as <-.
    exists p, fi. split; [apply Open_root; [done|by rewrite Hfm]|].
    split; [by rewrite Hfm|]. split; [done|].
    assert (Hroot : name fi = "/") by (apply (Hns p); [done|by rewrite <- Hkt]).
    split; [done|].
    assert (Hnil : zipFile fi = None).
    { destruct (zipFile fi) as [z|] eqn:Hz; [|done].
      destruct (inv_record _ _ _ _ Hinv p fi z Hp Hz) as [Hzin Hzt].
      destruct (Hnames z Hzin). by rewrite Hzt, Hroot. }
    split; [done|]. split; [unfold IsDir; by rewrite Hnil|].
    split; [unfold Mode; by rewrite Hnil|].
    intros zf Hin Hpar.
    destruct (inv_linked _ _ _ _ Hinv zf Hin)
      as (p1 & fi1 & q1 & fq1 & Hk1 & Hp1 & Hq1 & Hfq1 & Ht1).
    rewrite Hpar in Hk1. assert (p1 = p) by congruence. subst p1.
    exists fi1, q1, fq1. rewrite Hfm, Hpar. done.
Qed.

Lemma New_links_entries_to_parents_witness :
  exists fs p fi,
    New (archive [mkFile "d/e.txt" 1; mkFile "a.txt" 3]) "x.zip"
    = (Some fs, None) /\
    Open fs "/" = (Some (openReader p "/"), None) /\
    store fs !! p = Some fi /\ name fi = "/" /\ IsDir fi = true.
Proof.
  destruct (New (archive [mkFile "d/e.txt" 1; mkFile "a.txt" 3]) "x.zip")
    as [[fs|] [e|]] eqn:E; try (vm_compute in E; discriminate).
  destruct (New_links_entries_to_parents _ _ _ E)
    as (files & Hopen & _ & _ & _ & Hroot).
  injection Hopen as <-.
  destruct Hroot as (p & fi & HO & _ & Hp & Hn & _ & Hd & _).
  - exists (mkFile "a.txt" 3). split; [|reflexivity].
    apply elem_of_cons. right. apply elem_of_cons. by left.
  - intros zf Hin.
    apply elem_of_cons in Hin as [->|Hin]; [discriminate|].
    apply elem_of_cons in Hin as [->|Hin]; [discriminate|].
    by apply elem_of_nil in Hin.
  - by exists fs, p, fi.
Defined.

(* ===================================================================== *)
(** * Further properties of the package *)

(** ** Metadata entries: [Mode], [IsDir], [Size], [Name] *)

(** X1. The permission mode never has a write bit, and its directory bit
    agrees with [IsDir]: directories are 0555 with [os.ModeDir], every other
    node is 0444. *)
Theorem Mode_read_only_agrees_with_IsDir (fi : fileInfo) :
  Z.land (Mode fi) 146 = 0%Z /\
  FileMode_IsDir (Mode fi) = IsDir fi /\
  Mode fi = (if IsDir fi then Z.lor 365 ModeDir else 292%Z).
Proof.
  unfold Mode, IsDir. destruct (zipFile fi) as [zf|]; [|by vm_compute].
  destruct (FileMode_IsDir (zip.Mode zf)); by vm_compute.
Qed.

(** X2. With size fields in their ranges, [Size] stays in the [int64]
    range, and it is negative exactly when the 64-bit field is 2^63 or
    more: the conversion to [int64] wraps. *)
Theorem Size_wraps (fi : fileInfo) (zf : zip.File) :
  zipFile fi = Some zf ->
  (0 <= zip.UncompressedSize zf < 2 ^ 32)%Z ->
  (0 <= zip.UncompressedSize64 zf < 2 ^ 64)%Z ->
  (- 2 ^ 63 <= Size fi < 2 ^ 63)%Z /\
  ((Size fi < 0)%Z <-> (2 ^ 63 <= zip.UncompressedSize64 zf)%Z) /\
  ((2 ^ 63 <= zip.UncompressedSize64 zf)%Z ->
   Size fi = (zip.UncompressedSize64 zf - 2 ^ 64)%Z).
Proof.
  intros Hz H32 H64. unfold Size. rewrite Hz.
  assert (P64 : (2 ^ 64 = 2 * 2 ^ 63)%Z) by reflexivity.
  assert (P32 : (2 ^ 32 < 2 ^ 63)%Z) by reflexivity.
  assert (P0 : (0 < 2 ^ 32)%Z) by reflexivity.
  destruct (Z.eqb_spec (zip.UncompressedSize64 zf) 0) as [E|E].
  - rewrite int64_small by lia. repeat split; lia.
  - destruct (Z.lt_ge_cases (zip.UncompressedSize64 zf) (2 ^ 63)).
    + rewrite int64_small by lia. repeat split; lia.
    + assert (int64 (zip.UncompressedSize64 zf)
              = (zip.UncompressedSize64 zf - 2 ^ 64)%Z) as ->;
        [|repeat split; lia].
      unfold int64.
      replace (zip.UncompressedSize64 zf + 2 ^ 63)%Z
        with ((zip.UncompressedSize64 zf - 2 ^ 63) + 1 * 2 ^ 64)%Z by lia.
      rewrite Z.mod_add by lia. rewrite Z.mod_small; lia.
Qed.

Lemma Size_wraps_witness :
  let zf := {| zip.Name := "huge"; zip.UncompressedSize := 4294967295;
               zip.UncompressedSize64 := 2 ^ 63; zip.Mode := 292 |} in
  Size {| name := "huge"; zipFile := Some zf; fileInfos := [] |}
  = (- 2 ^ 63)%Z.
Proof.
  intros zf.
  destruct (Size_wraps {| name := "huge"; zipFile := Some zf;
                          fileInfos := [] |} zf eq_refl)
    as (_ & _ & H); [simpl; lia..|].
  rewrite H; [reflexivity | simpl; lia].
Defined.

Lemma Contains_slash_cons c s :
  Contains (String c s) "/" = Ascii.eqb c slash || Contains s "/".
Proof.
  cbn [Contains]. unfold String.prefix at 1. unfold slash.
  destruct (ascii_dec "/" c) as [<-|Hne].
  - by destruct s.
  - destruct (Ascii.eqb_spec c "/"); [congruence|done].
Qed.

Lemma path_Split_file_no_slash s : Contains (path_Split s).2 "/" = false.
Proof.
  induction s as [|c r IH]; [done|].
  cbn [path_Split]. destruct (path_Split r) as [dir file].
  cbn [snd] in IH. destruct dir as [|d dir].
  - destruct (Ascii.eqb_spec c slash) as [->|Hc]; cbn [snd]; [done|].
    rewrite Contains_slash_cons, IH.
    by destruct (Ascii.eqb_spec c slash).
  - done.
Qed.

(** X3. The base name a node lists under is never empty, and it contains
    no slash unless it is the root's ["/"]. *)
Theorem Name_no_slash (fi : fileInfo) :
  Name fi <> "" /\ (Name fi = "/" \/ Contains (Name fi) "/" = false).
Proof.
  unfold Name, path_Base. destruct (name fi) as [|c r]; [by split; [|right]|].
  assert (H := path_Split_file_no_slash (TrimRight (String c r) "/")).
  destruct (path_Split _).2 as [|b base]; [by split; [|left]|].
  split; [done|by right].
Qed.

(** ** The archive index: [FindOrCreate] *)

(** X4. [FindOrCreate] is idempotent: asked again for the same name it
    finds the node it returned and changes nothing. The name is registered
    for that node; nodes already in the store are kept as they are, and so
    is every key except, possibly, the name without its trailing slashes. *)
Theorem FindOrCreate_idempotent fm h nm p fm' h' :
  FindOrCreate fm h nm = (p, (fm', h')) ->
  FindOrCreate fm' h' nm = (p, (fm', h')) /\
  fm' !! nm = Some p /\
  (forall q fi, h !! q = Some fi -> h' !! q = Some fi) /\
  (forall k q, fm !! k = Some q -> k <> TrimRight nm "/" ->
               fm' !! k = Some q).
Proof.
  intros [(Hk & -> & ->)|(Hnone & -> & -> & ->)]%FindOrCreate_cases.
  - unfold FindOrCreate. rewrite Hk. repeat split; done.
  - assert (Hnm : add_keys fm nm (length h) !! nm = Some (length h)).
    { rewrite add_keys_lookup. rewrite decide_True; [done|by left]. }
    unfold FindOrCreate. rewrite Hnm. repeat split; try done.
    + intros q fi Hq. rewrite lookup_app_l; [done|]. by eapply lookup_lt_Some.
    + intros k q Hk Hne. rewrite add_keys_lookup.
      rewrite decide_False; [done|]. intros [E|E]; congruence.
Qed.

(** ** The file system: [Close] *)

(** X5. [Close] on the file system is idempotent: whatever the first call
    reported, a second call finds no closer left, reports no error and
    changes nothing; the error of closing the archive file is passed on by
    the call that holds the closer and by no other. *)
Theorem ZipFS_Close_idempotent (c1 c2 : option error) (fs : ZipFS) :
  ZipFS_Close c2 (ZipFS_Close c1 fs).1 = ((ZipFS_Close c1 fs).1, None) /\
  (ZipFS_Close c1 fs).2 = (if isNil (closer fs) then None else c1) /\
  readerAt (ZipFS_Close c1 fs).1 = None /\
  fs_fileInfos (ZipFS_Close c1 fs).1 = None.
Proof. unfold ZipFS_Close. simpl. by destruct (closer fs). Qed.

(** ** Handles: [Readdir] on files, page sizes *)

Lemma FileMode_IsDir_Mode (fi : fileInfo) :
  FileMode_IsDir (Mode fi) = IsDir fi.
Proof.
  unfold Mode, IsDir. destruct (zipFile fi) as [zf|]; [|done].
  by destruct (FileMode_IsDir (zip.Mode zf)).
Qed.

Lemma Readdir_not_directory h f fi (count : Z) :
  h !! f_fileInfo f = Some fi -> IsDir fi = false -> f_readdir f = None ->
  Readdir h f count
  = Ret (f, (None, Some (PathError "Readdir" (f_name f) errNotDirectory))).
Proof.
  intros Hp Hd Hl. unfold Readdir, readdir. rewrite Hp, FileMode_IsDir_Mode, Hd.
  destruct f as [nm p rd fl cl rdd]. simpl in *. subst rdd.
  by destruct (0 <? count)%Z.
Qed.

(** X6. On a handle opened on a node that is not a directory, every
    [Readdir] call, whatever its count and however often repeated, fails
    with the path error that wraps not-a-directory under the name used to
    open, and leaves the handle as it was. *)
Theorem Readdir_on_file_fails h f fi (counts : list Z) :
  h !! f_fileInfo f = Some fi -> IsDir fi = false -> f_readdir f = None ->
  Readdir_seq h f counts
  = Ret (f, (fun _ => (None, Some (PathError "Readdir" (f_name f)
                                             errNotDirectory))) <$> counts).
Proof.
  intros Hp Hd Hl. induction counts as [|c cs IH]; [done|].
  cbn [Readdir_seq]. by rewrite (Readdir_not_directory h f fi c), IH.
Qed.

Lemma Readdir_on_file_fails_witness :
  let h := [{| name := "a.txt"; zipFile := Some (mkFile "a.txt" 3);
               fileInfos := [] |}] in
  Readdir_seq h (openReader 0 "/a.txt") [0; 5]%Z
  = Ret (openReader 0 "/a.txt",
         [(None, Some (PathError "Readdir" "/a.txt" errNotDirectory));
          (None, Some (PathError "Readdir" "/a.txt" errNotDirectory))]).
Proof.
  intros h.
  exact (Readdir_on_file_fails h (openReader 0 "/a.txt")
           {| name := "a.txt"; zipFile := Some (mkFile "a.txt" 3);
              fileInfos := [] |} [0; 5]%Z eq_refl eq_refl eq_refl).
Defined.

(** X7. A [Readdir] call with [count > 0] never returns more than [count]
    entries; it returns exactly [count] whenever it reports no error; the
    only errors it reports are the end-of-listing signal and the wrapped
    not-a-directory; and what it returns together with what it leaves in
    the cursor is what the cursor held (the full child list when the
    cursor was not loaded). *)
Theorem Readdir_page_bound h f fi (count : Z) :
  h !! f_fileInfo f = Some fi -> (0 < count)%Z ->
  exists f' l err,
    Readdir h f count = Ret (f', (l, err)) /\
    (Z.of_nat (length (default [] l)) <= count)%Z /\
    (err = None -> Z.of_nat (length (default [] l)) = count) /\
    (err = None \/ err = Some EOF \/
     err = Some (PathError "Readdir" (f_name f) errNotDirectory)) /\
    (err <> Some (PathError "Readdir" (f_name f) errNotDirectory) ->
     default [] l ++ default [] (f_readdir f')
     = default (fileInfos fi) (f_readdir f)).
Proof.
  intros Hp Hc.
  assert (Hcur : forall g l0,
    h !! f_fileInfo g = Some fi -> f_readdir g = Some l0 ->
    exists f' l err,
      Readdir h g count = Ret (f', (l, err)) /\
      (Z.of_nat (length (default [] l)) <= count)%Z /\
      (err = None -> Z.of_nat (length (default [] l)) = count) /\
      (err = None \/ err = Some EOF) /\
      default [] l ++ default [] (f_readdir f') = l0).
  { intros g l0 Hg Hl. rewrite (Readdir_cursor h g fi count l0 Hg Hc Hl).
    destruct (Z.leb_spec count (Z.of_nat (length l0))).
    - eexists _, _, _. split; [done|]. simpl. rewrite length_take, take_drop.
      repeat split; auto; lia.
    - eexists _, _, _. split; [done|]. simpl. rewrite app_nil_r.
      repeat split; auto; try lia. done. }
  destruct (f_readdir f) as [l0|] eqn:Hl.
  - destruct (Hcur f l0 Hp Hl) as (f' & l & err & E & H1 & H2 & H3 & H4).
    exists f', l, err. repeat split; auto. tauto.
  - destruct (IsDir fi) eqn:Hd.
    + rewrite (Readdir_load h f fi count); [|split|..]; try done;
        [|by rewrite FileMode_IsDir_Mode].
      destruct (Hcur (set_readdir (Some (fileInfos fi)) f) (fileInfos fi))
        as (f' & l & err & E & H1 & H2 & H3 & H4); [done..|].
      exists f', l, err. repeat split; auto. tauto.
    + rewrite (Readdir_not_directory h f fi count Hp Hd Hl).
      eexists _, _, _. split; [done|]. simpl.
      repeat split; auto; try lia; try done.
Qed.

Lemma Readdir_page_bound_witness :
  let h := [ {| name := "a.txt"; zipFile := Some (mkFile "a.txt" 3);
                fileInfos := [] |};
             {| name := "/"; zipFile := None; fileInfos := [0; 0; 0] |} ] in
  exists f' l err,
    Readdir h (openReader 1 "/") 2 = Ret (f', (l, err)) /\
    (Z.of_nat (length (default [] l)) <= 2)%Z.
Proof.
  intros h.
  destruct (Readdir_page_bound h (openReader 1 "/")
              {| name := "/"; zipFile := None; fileInfos := [0; 0; 0] |} 2)
    as (f' & l & err & E & Hle & _); [reflexivity | lia |].
  by exists f', l, err.
Defined.

(** ** Handles: [Close], [Read], descriptors and temporary files *)

Lemma not_elem_of_remove_id (t : nat) (l : list nat) : t ∉ remove_id t l.
Proof. unfold remove_id. rewrite list_elem_of_filter. tauto. Qed.

Lemma elem_of_remove_id (x t : nat) (l : list nat) :
  x ∈ remove_id t l -> x ∈ l.
Proof. unfold remove_id. rewrite list_elem_of_filter. tauto. Qed.

Lemma remove_id_absent (t : nat) (l : list nat) : t ∉ l -> remove_id t l = l.
Proof.
  unfold remove_id. induction l as [|x l IH]; [done|].
  intros Hnin. apply not_elem_of_cons in Hnin as [Hne Hnin].
  rewrite filter_cons_True by done. by rewrite IH.
Qed.

Lemma remove_id_head (t : nat) (l : list nat) :
  t ∉ l -> remove_id t (t :: l) = l.
Proof.
  intros Hnin. unfold remove_id. rewrite filter_cons_False by tauto.
  by apply remove_id_absent.
Qed.

Lemma fileReader_Close_returns env f w :
  exists err w', fileReader_Close env f w = Ret ((set_closed true f, err), w').
Proof.
  unfold fileReader_Close.
  destruct f as [nm p rd fl cl rdd]. destruct rd as [rd|], fl as [t|].
  all: unfold_M; simpl.
  all: repeat (branch; simpl).
  all: by eexists _, _.
Qed.

(** X8. [Close] on a handle always returns, sets the closed flag and does
    nothing else to the handle. Whatever fails, every release step is
    taken: a temporary file is no longer open afterwards and [os.Remove]
    has been called on it exactly once; without a temporary file nothing is
    closed or removed. An error is reported only as a path error of
    operation [Close] under the name used to open; when no external call
    fails and the temporary file was open and on disk, there is no error
    and the file is gone. No temporary file is ever created. *)
Theorem fileReader_Close_releases env f w :
  exists err w',
    fileReader_Close env f w = Ret ((set_closed true f, err), w') /\
    created w' = created w /\
    (forall t, f_file f = Some t ->
       (t ∉ open_files w') /\ removals w' = removals w ++ [t] /\
       ((forall k, fails env k = None) ->
        t ∈ open_files w -> t ∈ on_disk w ->
        (t ∉ on_disk w') /\ err = None)) /\
    (f_file f = None ->
       open_files w' = open_files w /\ on_disk w' = on_disk w /\
       removals w' = removals w) /\
    (forall e, err = Some e -> exists e0, e = PathError "Close" (f_name f) e0).
Proof.
  unfold fileReader_Close.
  destruct f as [nm p rd fl cl rdd]. destruct rd as [rd|], fl as [t|].
  all: unfold_M; simpl.
  all: repeat (branch; simpl).
  all: eexists _, _; (split; [reflexivity|]); simpl.
  all: repeat split; intros;
         repeat match goal with
                | H : Some _ = Some _ |- _ => injection H as H
                end; subst; simpl in *;
         eauto using not_elem_of_remove_id; try congruence; try tauto.
Qed.

(** X9. After [Close], whatever [Close] itself reported, every [Read] and
    every [Seek] on the handle fails with the path error that wraps the
    closed-handle sentinel under the name used to open, makes no external
    call and changes neither the handle nor the world. *)
Theorem Read_Seek_after_Close env h f w :
  exists f' err w',
    fileReader_Close env f w = Ret ((f', err), w') /\
    (forall n w2,
       Read env h f' n w2
       = Ret ((f', (0%Z, Some (PathError "Read" (f_name f) errFileClosed))),
              w2)) /\
    (forall offset whence w2,
       Seek env h f' offset whence w2
       = Ret ((f', (0%Z, Some (PathError "Seek" (f_name f) errFileClosed))),
              w2)).
Proof.
  destruct (fileReader_Close_returns env f w) as (err & w' & E).
  exists (set_closed true f), err, w'. split; [exact E|].
  split; intros; [by apply Read_closed | by apply Seek_closed].
Qed.

Lemma Read_spec env h f zf (n : nat) w :
  zipFile_of h f = Some zf ->
  exists r w',
    Read env h f n w = Ret (r, w') /\
    created w' = created w /\ open_files w' = open_files w /\
    on_disk w' = on_disk w /\ removals w' = removals w /\
    f_fileInfo r.1 = f_fileInfo f /\ f_file r.1 = f_file f /\
    f_closed r.1 = f_closed f /\ f_readdir r.1 = f_readdir f /\
    streams w <= streams w' /\
    (f_closed f = true \/ is_Some (f_file f) \/ is_Some (f_reader f) ->
     r.1 = f /\ streams w' = streams w) /\
    (f_reader f = None ->
     streams w' + (if isNil (f_reader r.1) then 1 else 0) <= S (streams w)).
Proof.
  intros Hz. unfold zipFile_of in Hz.
  destruct f as [nm p rd fl cl rdd]. simpl in Hz.
  destruct (h !! p) as [fi|] eqn:Hp; [|done]. simpl in Hz.
  unfold Read, zipFile_of. simpl. rewrite Hp. simpl. rewrite Hz.
  destruct cl, rd as [rd|], fl as [t|].
  all: unfold_M; simpl.
  all: repeat (branch; simpl).
  all: eexists _, _; (split; [reflexivity|]); simpl.
  all: repeat split; intros; try lia; try done.
  all: repeat match goal with
              | H : _ \/ _ |- _ => destruct H
              | H : is_Some None |- _ => by destruct H
              end; try done.
Qed.

Lemma Read_seq_spec env h f zf (ns : list nat) w :
  zipFile_of h f = Some zf ->
  exists f' w',
    Read_seq env h f ns w = Ret (f', w') /\
    created w' = created w /\ open_files w' = open_files w /\
    on_disk w' = on_disk w /\ removals w' = removals w /\
    f_fileInfo f' = f_fileInfo f /\ f_file f' = f_file f /\
    f_closed f' = f_closed f /\
    streams w' + (if isNil (f_reader f') then 1 else 0)
    <= streams w + 1 /\
    (f_closed f = true \/ is_Some (f_file f) \/ is_Some (f_reader f) ->
     f' = f /\ streams w' = streams w).
Proof.
  revert f w. induction ns as [|n ns IH]; intros f w Hz.
  - exists f, w. repeat split; try done. destruct (isNil _); lia.
  - destruct (Read_spec env h f zf n w Hz)
      as ([f1 r] & w1 & HR & H1 & H2 & H3 & H4 & H5 & H6 & H7 & H8 & H9
          & H10 & H11).
    simpl in *.
    destruct (IH f1 w1) as (f2 & w2 & HS & G1 & G2 & G3 & G4 & G5 & G6 & G7
                            & G8 & G9).
    { unfold zipFile_of in *. by rewrite H5. }
    exists f2, w2. cbn [Read_seq]. unfold mbind, M_bind at 1. rewrite HR.
    split; [exact HS|]. repeat split; try congruence.
    + destruct (f_reader f) as [rd|] eqn:Hrd.
      * destruct H10 as [Ef Es]; [eauto|]. subst f1.
        destruct G9 as [Ef Es2]; [rewrite Hrd; eauto|]. subst f2.
        rewrite Hrd. simpl. lia.
      * specialize (H11 eq_refl).
        destruct (f_reader f1) as [rd1|] eqn:Hrd1; simpl in *; [|lia].
        destruct G9 as [Ef Es2]; [eauto|]. subst f2.
        rewrite Hrd1. simpl. lia.
    + destruct H10 as [Ef Es]; [done|]. subst f1. by apply G9.
    + destruct H10 as [Ef Es]; [done|]. subst f1.
      destruct G9 as [_ E2]; [done|]. lia.
Qed.

(** X10. On a handle for a node with an archive record, any run of [Read]
    calls returns (no panic); it creates, closes and removes no temporary
    file and leaves the handle's temporary file, closed flag and node as
    they were; the decompression stream is opened lazily and at most once:
    the run opens at most one stream, and none at all when the handle is
    closed, already has a stream, or is backed by a temporary file, in
    which cases the handle is unchanged. *)
Theorem Read_opens_stream_at_most_once env h f (ns : list nat) w :
  file_handle h f ->
  exists f' w',
    Read_seq env h f ns w = Ret (f', w') /\
    created w' = created w /\ open_files w' = open_files w /\
    on_disk w' = on_disk w /\ removals w' = removals w /\
    f_file f' = f_file f /\ f_closed f' = f_closed f /\
    f_fileInfo f' = f_fileInfo f /\
    streams w' <= S (streams w) /\
    (f_closed f = true \/ is_Some (f_file f) \/ is_Some (f_reader f) ->
     f' = f /\ streams w' = streams w).
Proof.
  intros [zf Hz].
  destruct (Read_seq_spec env h f zf ns w Hz)
    as (f' & w' & HS & G1 & G2 & G3 & G4 & G5 & G6 & G7 & G8 & G9).
  exists f', w'. repeat split; try done; try (by apply G9).
  destruct (isNil (f_reader f')); lia.
Qed.

Lemma Read_opens_stream_at_most_once_witness :
  let h := [{| name := "a.txt"; zipFile := Some (mkFile "a.txt" 3);
               fileInfos := [] |}] in
  exists f' w',
    Read_seq (quiet 2) h (openReader 0 "a.txt") [2; 2; 2] world0
    = Ret (f', w') /\
    streams w' <= 1.
Proof.
  intros h.
  destruct (Read_opens_stream_at_most_once (quiet 2) h (openReader 0 "a.txt")
              [2; 2; 2] world0)
    as (f' & w' & HR & _ & _ & _ & _ & _ & _ & _ & Hs & _); [by eexists|].
  by exists f', w'.
Defined.

Lemma world_ok_fresh w :
  world_ok w -> (created w ∉ open_files w) /\ (created w ∉ on_disk w).
Proof.
  intros Hok. split; intros Hin.
  - specialize (Hok _ (or_introl Hin)). lia.
  - specialize (Hok _ (or_intror Hin)). lia.
Qed.

Lemma world_ok_step w w' :
  world_ok w -> created w <= created w' ->
  (forall t, t ∈ open_files w' -> t ∈ open_files w \/ t < created w') ->
  (forall t, t ∈ on_disk w' -> t ∈ on_disk w \/ t < created w') ->
  world_ok w'.
Proof.
  intros Hok Hc Ho Hd t [Hin|Hin].
  - destruct (Ho t Hin) as [H|H]; [|done].
    specialize (Hok t (or_introl H)). lia.
  - destruct (Hd t Hin) as [H|H]; [|done].
    specialize (Hok t (or_intror H)). lia.
Qed.

Ltac absurd_branch :=
  exfalso;
  match goal with
  | Hn : _ ∉ _ :: _ |- _ => apply Hn; constructor
  end.

#[local] Arguments remove_id : simpl never.

(** X11. [createTempFile] on an archive record, in a world where every
    open or existing temporary file was created earlier, leaks no
    descriptor. When it hands a file back it reports no error, the file is
    new, open and on disk, and nothing was removed. When it fails it hands
    nothing back, the open files are those from before, and a temporary
    file it had created has been passed to [os.Remove]. When no external
    call fails it hands a file back. *)
Theorem createTempFile_no_descriptor_leak env zf w :
  world_ok w ->
  exists r w',
    createTempFile env (Some zf) w = Ret (r, w') /\
    world_ok w' /\
    match r.1 with
    | Some t =>
        r.2 = None /\ t = created w /\ created w' = S (created w) /\
        open_files w' = t :: open_files w /\ on_disk w' = t :: on_disk w /\
        removals w' = removals w
    | None =>
        r.2 <> None /\ open_files w' = open_files w /\
        (created w' = created w /\ on_disk w' = on_disk w /\
         removals w' = removals w
         \/ created w' = S (created w) /\
            removals w' = removals w ++ [created w] /\
            (on_disk w' = on_disk w \/ on_disk w' = created w :: on_disk w))
    end /\
    ((forall k, fails env k = None) -> r.1 <> None).
Proof.
  intros Hok. destruct (world_ok_fresh w Hok) as [Hfo Hfd].
  unfold_M. simpl.
  repeat (branch; simpl).
  all: try absurd_branch.
  all: eexists _, _; (split; [reflexivity|]); simpl.
  all: rewrite ?remove_id_head by done.
  all: split;
         [apply (world_ok_step w); simpl; [done|lia|..];
          intros t Hin; rewrite ?remove_id_head in Hin by done;
          try first [by left
                | apply elem_of_cons in Hin as [->|Hin]; [right; lia|by left]]
         |].
  all: rewrite ?remove_id_head by done.
  all: repeat split; intros; try done; try congruence; auto.
Qed.

Lemma createTempFile_no_descriptor_leak_witness :
  exists t w',
    createTempFile (quiet 0) (Some (mkFile "a.txt" 3)) world0
    = Ret ((Some t, None), w') /\
    open_files w' = [t].
Proof.
  destruct (createTempFile_no_descriptor_leak (quiet 0) (mkFile "a.txt" 3)
              world0)
    as ([[t|] err] & w' & E & _ & Hr & Hq).
  - intros t [Hin|Hin]; by apply elem_of_nil in Hin.
  - simpl in Hr. destruct Hr as (-> & _ & _ & Ho & _).
    by exists t, w'.
  - by destruct Hq.
Defined.

Lemma Seek_descriptors env h f zf (offset whence : Z) w base :
  zipFile_of h f = Some zf -> world_ok w -> owns f w base ->
  exists r w',
    Seek env h f offset whence w = Ret (r, w') /\
    world_ok w' /\ owns r.1 w' base /\ f_fileInfo r.1 = f_fileInfo f /\
    ((forall k, fails env k = None) ->
     forall based, owns_disk f w based -> owns_disk r.1 w' based).
Proof.
  intros Hz Hok Hown. destruct (world_ok_fresh w Hok) as [Hfo Hfd].
  unfold zipFile_of in Hz.
  destruct f as [nm p rd fl cl rdd]. simpl in Hz.
  destruct (h !! p) as [fi|] eqn:Hp; [|done]. simpl in Hz.
  unfold owns, owns_disk in *. simpl in Hown.
  unfold Seek, fileReader_createTempFile, zipFile_of.
  destruct cl; [unfold_M; simpl; eexists _, _; by repeat split|].
  destruct rd as [rd|], fl as [t|]; simpl; rewrite ?Hp; simpl; rewrite ?Hz.
  all: try (destruct (Z.eqb_spec offset 0), (Z.eqb_spec whence 0);
            cbn [andb]).
  all: unfold_M; simpl; rewrite ?Hp; simpl; rewrite ?Hz.
  all: repeat (branch; simpl; rewrite ?Hp; simpl; rewrite ?Hz).
  all: try absurd_branch.
  all: eexists _, _; (split; [reflexivity|]); simpl.
  all: split;
         [apply (world_ok_step w); simpl; [done|lia|..];
          intros x Hin; rewrite ?remove_id_head in Hin by done;
          try first [by left
                | apply elem_of_cons in Hin as [->|Hin]; [right; lia|by left]]
         |].
  all: rewrite ?remove_id_head by done.
  all: repeat split; intros;
         try match goal with
             | Hq : forall k, fails ?e k = None, He : fails ?e _ = Some _
               |- _ => rewrite Hq in He; discriminate
             end;
         repeat match goal with H : _ /\ _ |- _ => destruct H end;
         subst; simpl in *; try done; try congruence.
Qed.

Lemma Seek_seq_descriptors env h f zf (reqs : list (Z * Z)) w base :
  zipFile_of h f = Some zf -> world_ok w -> owns f w base ->
  exists f' w',
    Seek_seq env h f reqs w = Ret (f', w') /\
    world_ok w' /\ owns f' w' base /\
    ((forall k, fails env k = None) ->
     forall based, owns_disk f w based -> owns_disk f' w' based).
Proof.
  revert f w. induction reqs as [|[offset whence] reqs IH];
    intros f w Hz Hok Hown.
  - exists f, w. repeat split; done.
  - destruct (Seek_descriptors env h f zf offset whence w base Hz Hok Hown)
      as ([f1 r] & w1 & HS & Hok1 & Hown1 & Hp1 & Hd1).
    simpl in *.
    destruct (IH f1 w1) as (f2 & w2 & HR & Hok2 & Hown2 & Hd2); [|done..|].
    { unfold zipFile_of in *. by rewrite Hp1. }
    exists f2, w2. cbn [Seek_seq]. unfold mbind, M_bind at 1. rewrite HS.
    repeat split; try done. intros Hq based Hb. by apply Hd2, Hd1.
Qed.

Lemma fileReader_Close_descriptors env f w base :
  owns f w base ->
  exists err w',
    fileReader_Close env f w = Ret ((set_closed true f, err), w') /\
    open_files w' = base /\
    ((forall k, fails env k = None) ->
     forall based, owns_disk f w based -> on_disk w' = based /\ err = None).
Proof.
  unfold owns, owns_disk, fileReader_Close.
  destruct f as [nm p rd fl cl rdd]. simpl.
  destruct rd as [rd|], fl as [t|]; intros Hown.
  all: try match type of Hown with _ /\ _ => destruct Hown as [Ho Hn] end.
  all: unfold_M; simpl; rewrite ?Ho.
  all: repeat (branch; simpl; rewrite ?Ho).
  all: try absurd_branch.
  all: eexists _, _; (split; [reflexivity|]); simpl.
  all: repeat split; intros;
         try match goal with
             | Hq : forall k, fails ?e k = None, He : fails ?e _ = Some _
               |- _ => rewrite Hq in He; discriminate
             end;
         repeat match goal with H : _ /\ _ |- _ => destruct H end;
         try match goal with
             | Ho : open_files _ = _ :: _ |- _ => rewrite Ho
             end;
         try match goal with
             | Ho : on_disk _ = _ :: _ |- _ => rewrite Ho in *
             end;
         rewrite ?remove_id_head by done; try done; try congruence.
  all: try (exfalso;
            match goal with
            | Hn : _ ∉ _ :: _ |- _ => apply Hn; constructor
            end).
Qed.

(** X12. No descriptor leaks over the life of a handle. On a handle for a
    node with an archive record that has no temporary file yet, in a world
    where every open or existing temporary file was created earlier: after
    any run of [Seek] calls followed by [Close], whatever fails on the way,
    the open temporary files are exactly those that were open before; and
    when no external call fails the temporary files on disk are those that
    were there before and [Close] reports no error. *)
Theorem handle_lifecycle_no_leak env h f (reqs : list (Z * Z)) w :
  file_handle h f -> f_file f = None -> world_ok w ->
  exists f1 w1 err w2,
    Seek_seq env h f reqs w = Ret (f1, w1) /\
    fileReader_Close env f1 w1 = Ret ((set_closed true f1, err), w2) /\
    open_files w2 = open_files w /\
    ((forall k, fails env k = None) ->
     on_disk w2 = on_disk w /\ err = None).
Proof.
  intros [zf Hz] Hnone Hok.
  assert (Hown : owns f w (open_files w)) by (unfold owns; by rewrite Hnone).
  destruct (Seek_seq_descriptors env h f zf reqs w _ Hz Hok Hown)
    as (f1 & w1 & HS & Hok1 & Hown1 & Hd1).
  destruct (fileReader_Close_descriptors env f1 w1 _ Hown1)
    as (err & w2 & HC & Ho & Hd2).
  exists f1, w1, err, w2. do 3 (split; [done|]).
  intros Hq. apply (Hd2 Hq), (Hd1 Hq). unfold owns_disk. by rewrite Hnone.
Qed.

Lemma handle_lifecycle_no_leak_witness :
  let h := [{| name := "a.txt"; zipFile := Some (mkFile "a.txt" 3);
               fileInfos := [] |}] in
  exists f1 w1 err w2,
    Seek_seq (quiet 1) h (openReader 0 "a.txt") [(1, 0); (0, 2)]%Z world0
    = Ret (f1, w1) /\
    fileReader_Close (quiet 1) f1 w1 = Ret ((set_closed true f1, err), w2) /\
    open_files w2 = [].
Proof.
  intros h.
  destruct (handle_lifecycle_no_leak (quiet 1) h (openReader 0 "a.txt")
              [(1, 0); (0, 2)]%Z world0)
    as (f1 & w1 & err & w2 & HS & HC & Ho & _);
    [by eexists | reflexivity | |].
  - intros t [Hin|Hin]; by apply elem_of_nil in Hin.
  - by exists f1, w1, err, w2.
Defined.

(** ** The archive index: opening what the archive lists *)

Lemma FindOrCreate_keys fm h nm p fm' h' :
  FindOrCreate fm h nm = (p, (fm', h')) ->
  is_Some (fm' !! nm) /\
  (forall k, is_Some (fm !! k) -> is_Some (fm' !! k)) /\
  (keys_closed fm -> keys_closed fm').
Proof.
  intros [(Hk & -> & ->)|(Hnone & -> & -> & ->)]%FindOrCreate_cases.
  - by repeat split.
  - assert (Hmono : forall k, is_Some (fm !! k) ->
                              is_Some (add_keys fm nm (length h) !! k)).
    { intros k Hk. rewrite add_keys_lookup. by case_decide. }
    split; [|split; [done|]].
    + rewrite add_keys_lookup. rewrite decide_True; [done|by left].
    + intros Hcl k. rewrite !add_keys_lookup. case_decide as Hd.
      * intros _. rewrite decide_True; [done|].
        right. destruct Hd as [->| ->]; [done|apply TrimRight_idem].
      * intros Hk. case_decide; [done|]. by apply Hcl.
Qed.

Lemma New_entry_keys fm h zf :
  let st := New_entry (fm, h) zf in
  is_Some (st.1 !! zip.Name zf) /\
  (forall k, is_Some (fm !! k) -> is_Some (st.1 !! k)) /\
  (keys_closed fm -> keys_closed st.1).
Proof.
  unfold New_entry, FindOrCreateParent. simpl.
  destruct (FindOrCreate fm h (zip.Name zf)) as [fi [fm1 h1]] eqn:E1.
  destruct (FindOrCreate fm1 _ (parentDirName (zip.Name zf)))
    as [pp [fm3 h3]] eqn:E3.
  simpl.
  destruct (FindOrCreate_keys _ _ _ _ _ _ E1) as (A1 & B1 & C1).
  destruct (FindOrCreate_keys _ _ _ _ _ _ E3) as (A3 & B3 & C3).
  auto.
Qed.

Lemma New_entries_keys files : forall fm h,
  keys_closed fm ->
  let st := fold_left New_entry files (fm, h) in
  keys_closed st.1 /\
  (forall k, is_Some (fm !! k) -> is_Some (st.1 !! k)) /\
  (forall zf, zf ∈ files -> is_Some (st.1 !! zip.Name zf)).
Proof.
  induction files as [|zf files IH]; intros fm h Hcl; simpl.
  - split; [done|]. split; [done|]. intros zf Hin. by apply elem_of_nil in Hin.
  - destruct (New_entry (fm, h) zf) as [fm1 h1] eqn:E.
    assert (H1 := New_entry_keys fm h zf). rewrite E in H1. simpl in H1.
    destruct H1 as (A1 & B1 & C1).
    destruct (IH fm1 h1 (C1 Hcl)) as (A & B & C).
    split; [done|]. split; [auto|].
    intros zf' [->|Hin]%elem_of_cons; auto.
Qed.

Lemma New_keys open nm fs :
  New open nm = (Some fs, None) ->
  exists files fm,
    open nm = inr files /\ fs_fileInfos fs = Some fm /\
    keys_closed fm /\ forall zf, zf ∈ files -> is_Some (fm !! zip.Name zf).
Proof.
  unfold New. destruct (open nm) as [err|files]; [done|].
  destruct (fold_left New_entry files (∅, [])) as [fm h] eqn:E.
  intros [= <-]. exists files, fm. simpl. do 2 (split; [done|]).
  assert (Hcl : keys_closed (∅ : gmap string nat)).
  { intros k [x Hk]. by rewrite lookup_empty in Hk. }
  destruct (New_entries_keys files ∅ [] Hcl) as (A & _ & C).
  rewrite E in A, C. done.
Qed.

(** X13. After [New], [Open] finds the entries of the archive under the
    paths that clean to their names: for every entry the archive lists and
    every path whose cleaned form ([path.Clean]), less its leading slashes,
    equals the entry's name or the entry's name without its trailing
    slashes (the way a directory entry [d/] is asked for as [/d]), [Open]
    succeeds; the handle is fresh, keeps the path it was opened with, and
    is on a node of the store that bears the entry's name up to trailing
    slashes. An entry whose name is the cleaned form of no path (a name
    such as [./c], [/abs] or [a//b]) has no such path, and nothing is said
    about it. *)
Theorem Open_archive_entry open nm fs files zf (path : string) :
  New open nm = (Some fs, None) -> open nm = inr files -> zf ∈ files ->
  TrimLeft (path_Clean path) "/" = zip.Name zf \/
  TrimLeft (path_Clean path) "/" = TrimRight (zip.Name zf) "/" ->
  exists p fi,
    Open fs path = (Some (openReader p path), None) /\
    store fs !! p = Some fi /\
    TrimRight (name fi) "/" = TrimRight (zip.Name zf) "/".
Proof.
  intros HN Hopen Hin Hpath.
  destruct (New_keys _ _ _ HN) as (files' & fm & Hopen' & Hfm & Hcl & Hkeys).
  rewrite Hopen in Hopen'. injection Hopen' as <-.
  destruct (New_index_inv _ _ _ HN) as (files' & fm' & Hopen' & Hfm' & Hrd & Hinv).
  rewrite Hfm in Hfm'. injection Hfm' as <-.
  assert (Hk : is_Some (fm !! TrimLeft (path_Clean path) "/")).
  { destruct Hpath as [->| ->]; [auto|]. apply Hcl. auto. }
  destruct Hk as [p Hk].
  destruct (inv_key _ _ _ _ Hinv _ _ Hk) as (fi & Hp & Ht).
  exists p, fi. split; [|split; [done|]].
  - unfold Open, openFileInfo. rewrite Hrd, Hfm. simpl. by rewrite Hk.
  - rewrite <- Ht. destruct Hpath as [->| ->]; [done|apply TrimRight_idem].
Qed.

Lemma Open_archive_entry_witness :
  exists fs p,
    New (archive [mkDir "d/" 0; mkFile "d/e.txt" 1]) "x.zip"
    = (Some fs, None) /\
    Open fs "/d" = (Some (openReader p "/d"), None).
Proof.
  destruct (New (archive [mkDir "d/" 0; mkFile "d/e.txt" 1]) "x.zip")
    as [[fs|] [e|]] eqn:E; try (vm_compute in E; discriminate).
  destruct (Open_archive_entry _ _ _ [mkDir "d/" 0; mkFile "d/e.txt" 1]
              (mkDir "d/" 0) "/d" E eq_refl)
    as (p & fi & HO & _); [by left | by right |].
  by exists fs, p.
Defined.

(** ** The archive index: sorted child lists *)

Lemma Ascii_compare_Lt_trans a b c :
  Ascii.compare a b = Lt -> Ascii.compare b c = Lt -> Ascii.compare a c = Lt.
Proof.
  unfold Ascii.compare. rewrite !N.compare_lt_iff. lia.
Qed.

Lemma String_compare_Lt_trans a : forall b c,
  String.compare a b = Lt -> String.compare b c = Lt ->
  String.compare a c = Lt.
Proof.
  induction a as [|x a IH]; intros [|y b] [|z c]; simpl; try done.
  destruct (Ascii.compare x y) eqn:Exy; try done;
    destruct (Ascii.compare y z) eqn:Eyz; try done; intros Hab Hbc.
  - apply Ascii.compare_eq_iff in Exy, Eyz. subst.
    assert (Ascii.compare z z = Eq) as -> by (unfold Ascii.compare; apply N.compare_refl).
    eauto.
  - apply Ascii.compare_eq_iff in Exy. subst. by rewrite Eyz.
  - apply Ascii.compare_eq_iff in Eyz. subst. by rewrite Exy.
  - by rewrite (Ascii_compare_Lt_trans x y z).
Qed.

Lemma String_compare_refl a : String.compare a a = Eq.
Proof.
  induction a as [|x a IH]; [done|]. simpl.
  assert (Ascii.compare x x = Eq) as ->
    by (unfold Ascii.compare; apply N.compare_refl).
  exact IH.
Qed.

Lemma String_ltb_irrefl a : String.ltb a a = false.
Proof. unfold String.ltb. by rewrite String_compare_refl. Qed.

Lemma String_ltb_trans a b c :
  String.ltb a b = true -> String.ltb b c = true -> String.ltb a c = true.
Proof.
  unfold String.ltb. intros Hab Hbc.
  destruct (String.compare a b) eqn:Eab; try done.
  destruct (String.compare b c) eqn:Ebc; try done.
  by rewrite (String_compare_Lt_trans a b c).
Qed.

Lemma String_ltb_leb a b : String.ltb a b = true -> String.leb a b = true.
Proof. unfold String.ltb, String.leb. by destruct (String.compare a b). Qed.

Lemma String_not_ltb_leb a b : String.ltb b a = false -> String.leb a b = true.
Proof.
  unfold String.ltb, String.leb. rewrite (String.compare_antisym b a).
  by destruct (String.compare a b).
Qed.

Lemma String_leb_trans a b c :
  String.leb a b = true -> String.leb b c = true -> String.leb a c = true.
Proof.
  unfold String.leb. intros Hab Hbc.
  destruct (String.compare a b) eqn:Eab; try done.
  - apply String.compare_eq_iff in Eab. by subst.
  - destruct (String.compare b c) eqn:Ebc; try done.
    + apply String.compare_eq_iff in Ebc. subst. by rewrite Eab.
    + by rewrite (String_compare_Lt_trans a b c).
Qed.

(** X14. [Less] is a strict order on the nodes of a store, as [sort.Sort]
    requires: never true of a node and itself, never true both ways, and
    transitive. *)
Theorem Less_strict_order (h : list fileInfo) (a b c : ptr) :
  Less h a a = false /\
  (Less h a b = true -> Less h b a = false) /\
  (Less h a b = true -> Less h b c = true -> Less h a c = true).
Proof.
  unfold Less.
  destruct (h !! a) as [fa|], (h !! b) as [fb|], (h !! c) as [fc|];
    repeat split; try done; try apply String_ltb_irrefl;
    try (intros Hab; destruct (String.ltb (Name fb) (Name fa)) eqn:Hba;
         [|done];
         by rewrite <- (String_ltb_irrefl (Name fa)),
                    (String_ltb_trans _ _ _ Hab Hba));
    try apply String_ltb_trans.
Qed.

Lemma Less_true h a b :
  Less h a b = true -> name_le h a b.
Proof.
  unfold Less, name_le, node_Name.
  destruct (h !! a) as [fa|], (h !! b) as [fb|]; try done.
  intros Hlt. exists (Name fa), (Name fb). eauto using String_ltb_leb.
Qed.

Lemma Less_false h a b :
  is_Some (h !! a) -> is_Some (h !! b) ->
  Less h b a = false -> name_le h a b.
Proof.
  unfold Less, name_le, node_Name. intros [fa ->] [fb ->] Hlt.
  exists (Name fa), (Name fb). eauto using String_not_ltb_leb.
Qed.

Lemma name_le_trans h a b c : name_le h a b -> name_le h b c -> name_le h a c.
Proof.
  intros (na & nb & Ha & Hb & Hab) (nb' & nc & Hb' & Hc & Hbc).
  rewrite Hb in Hb'. injection Hb' as <-.
  exists na, nc. eauto using String_leb_trans.
Qed.

Lemma sort_insert_sorted h x l :
  is_Some (h !! x) -> Forall (fun q => is_Some (h !! q)) l ->
  StronglySorted (name_le h) l ->
  StronglySorted (name_le h) (sort_insert (Less h) x l).
Proof.
  intros Hx. induction l as [|y l IH]; intros Hv Hs; simpl.
  - repeat constructor.
  - apply Forall_cons in Hv as [Hy Hv].
    apply StronglySorted_cons in Hs as [Hyl Hs].
    destruct (Less h y x) eqn:Hlt.
    + apply StronglySorted_cons. split; [|auto].
      apply Forall_forall. intros q [->|Hq]%elem_of_sort_insert.
      * by apply Less_true.
      * by eapply Forall_forall in Hyl.
    + assert (Hxy : name_le h x y) by (by apply Less_false).
      apply StronglySorted_cons. split; [|by apply StronglySorted_cons].
      apply Forall_cons. split; [done|].
      eapply Forall_impl; [exact Hyl|]. intros q Hq.
      by apply name_le_trans with y.
Qed.

Lemma sort_Sort_sorted h l :
  Forall (fun q => is_Some (h !! q)) l ->
  StronglySorted (name_le h) (sort_Sort (Less h) l).
Proof.
  unfold sort_Sort. induction l as [|x l IH]; intros Hv; simpl.
  - constructor.
  - apply Forall_cons in Hv as [Hx Hv]. apply sort_insert_sorted; auto.
    apply Forall_forall. intros q Hq%elem_of_sort_Sort.
    by eapply Forall_forall in Hv.
Qed.

Lemma StronglySorted_short {A} (R : relation A) (l : list A) :
  length l <= 1 -> StronglySorted R l.
Proof.
  destruct l as [|x [|y l]]; simpl; intros; try lia; repeat constructor.
Qed.

Lemma StronglySorted_weaken {A} (R R' : relation A) (l : list A) :
  (forall a b, R a b -> R' a b) -> StronglySorted R l -> StronglySorted R' l.
Proof.
  intros HR. induction 1 as [|x l Hs IH Hx]; constructor; [done|].
  eapply Forall_impl; eauto.
Qed.

Lemma node_Name_New_sort h p q : node_Name (New_sort h p) q = node_Name h q.
Proof.
  unfold node_Name, New_sort. destruct (decide (p = q)) as [->|Hne].
  - rewrite list_lookup_alter_eq. destruct (h !! q) as [fi|]; [|done].
    simpl. unfold Name. by destruct (1 <? length (fileInfos fi)).
  - by rewrite list_lookup_alter_ne.
Qed.

Lemma name_le_New_sort h p a b : name_le h a b -> name_le (New_sort h p) a b.
Proof. unfold name_le. by rewrite !node_Name_New_sort. Qed.

Lemma New_sort_sorted_at seen linked fm h p0 p :
  index_inv seen linked fm h ->
  sorted_at h p \/ p = p0 -> sorted_at (New_sort h p0) p.
Proof.
  intros Hinv Hp fi Hfi.
  apply StronglySorted_weaken with (R := name_le h);
    [intros a b; apply name_le_New_sort|].
  unfold New_sort in Hfi. destruct (decide (p0 = p)) as [->|Hne].
  - rewrite list_lookup_alter_eq in Hfi.
    apply fmap_Some in Hfi as (fi0 & Hfi0 & ->).
    destruct (1 <? length (fileInfos fi0)) eqn:Hlen.
    + simpl. apply sort_Sort_sorted. apply Forall_forall. intros q Hq.
      destruct (inv_child _ _ _ _ Hinv p fi0 q Hfi0 Hq) as (fq & Hfq & _).
      by exists fq.
    + apply StronglySorted_short. apply Nat.ltb_ge in Hlen. lia.
  - rewrite list_lookup_alter_ne in Hfi by done.
    destruct Hp as [Hp| ->]; [by apply Hp|done].
Qed.

Lemma New_sort_fold_sorted seen linked fm (ps : list ptr) : forall h p,
  index_inv seen linked fm h ->
  sorted_at h p \/ p ∈ ps -> sorted_at (fold_left New_sort ps h) p.
Proof.
  induction ps as [|p0 ps IH]; intros h p Hinv Hp; simpl.
  - destruct Hp as [Hp|Hp]; [done|by apply elem_of_nil in Hp].
  - apply IH; [by apply index_inv_New_sort|].
    destruct Hp as [Hp|[->|Hp]%elem_of_cons]; [| |by right].
    + left. eapply New_sort_sorted_at; eauto.
    + left. eapply New_sort_sorted_at; eauto.
Qed.

(** X15. After [New], the child list of every node is sorted by base name:
    of two children, the one listed first never has the greater name. The
    listing [Readdir(0)] returns on a directory handle is that list. *)
Theorem New_sorts_children open nm fs :
  New open nm = (Some fs, None) ->
  forall p fi,
    store fs !! p = Some fi ->
    StronglySorted (name_le (store fs)) (fileInfos fi) /\
    forall f, f_fileInfo f = p -> IsDir fi = true ->
      Readdir (store fs) f 0 = Ret (f, (Some (fileInfos fi), None)).
Proof.
  intros HN p fi Hp. split.
  - revert HN p fi Hp. unfold New.
    destruct (open nm) as [err|files]; [done|].
    destruct (fold_left New_entry files (∅, [])) as [fm h] eqn:E.
    intros [= <-]. simpl. intros p fi Hp.
    assert (Hinv : index_inv (reverse files) (reverse files) fm h).
    { assert (H := index_inv_entries files [] ∅ [] index_inv_empty).
      by rewrite E, app_nil_r in H. }
    assert (Hinv' := index_inv_sorted _ _ _ (map snd (map_to_list fm)) _ Hinv).
    destruct (fileInfos fi) as [|q l] eqn:Hl; [constructor|].
    rewrite <- Hl.
    apply (New_sort_fold_sorted _ _ _ _ h p Hinv); [|done].
    right.
    destruct (inv_child _ _ _ _ Hinv' p fi q Hp) as (fq & _ & Hk);
      [rewrite Hl; by left|].
    apply list_elem_of_fmap. exists (parentDirName (name fq), p).
    split; [done|]. by apply elem_of_map_to_list.
  - intros f <- Hd. apply Readdir_nonpositive; [|lia].
    split; [done|]. by rewrite FileMode_IsDir_Mode.
Qed.

Lemma New_sorts_children_witness :
  exists fs fi,
    New (archive [mkFile "b.txt" 3; mkFile "a.txt" 1; mkDir "c/" 0]) "x.zip"
    = (Some fs, None) /\
    store fs !! 1 = Some fi /\ name fi = "/" /\
    StronglySorted (name_le (store fs)) (fileInfos fi) /\
    node_Name (store fs) <$> fileInfos fi
    = [Some "a.txt"; Some "b.txt"; Some "c"].
Proof.
  destruct (New (archive [mkFile "b.txt" 3; mkFile "a.txt" 1; mkDir "c/" 0])
              "x.zip") as [[fs|] [e|]] eqn:E;
    try (vm_compute in E; discriminate).
  destruct (store fs !! 1) as [fi|] eqn:Hfi;
    [|vm_compute in E; injection E as <-; vm_compute in Hfi; discriminate].
  destruct (New_sorts_children _ _ _ E 1 fi Hfi) as [Hs _].
  exists fs, fi. split; [done|]. split; [done|].
  vm_compute in E. injection E as <-.
  vm_compute in Hfi. injection Hfi as <-.
  split; [done|]. split; [exact Hs|]. vm_compute. reflexivity.
Defined.

Lemma FindOrCreate_idempotent_witness :
  exists p fm' h',
    FindOrCreate ∅ [] "d/" = (p, (fm', h')) /\
    FindOrCreate fm' h' "d/" = (p, (fm', h')) /\
    fm' !! "d" = Some p.
Proof.
  destruct (FindOrCreate ∅ [] "d/") as [p [fm' h']] eqn:E.
  destruct (FindOrCreate_idempotent _ _ _ _ _ _ E) as (H1 & _).
  exists p, fm', h'. split; [done|]. split; [exact H1|].
  vm_compute in E. injection E as <- <- <-. vm_compute. reflexivity.
Defined.

(** X16. [FindOrCreateParent] answers with the node registered under the
    parent key of the name. That key ends in a slash, so it is never the
    slash-stripped alias of any name; it is ["/"] or has a byte other than
    a slash; and it does not depend on trailing slashes of the name: [d]
    and [d/] are hung below the same parent. *)
Theorem FindOrCreateParent_key fm h nm p fm' h' :
  FindOrCreateParent fm h nm = (p, (fm', h')) ->
  fm' !! parentDirName nm = Some p /\
  HasSuffix (parentDirName nm) "/" = true /\
  (forall x, parentDirName nm <> TrimRight x "/") /\
  (parentDirName nm = "/" \/ TrimRight (parentDirName nm) "/" <> "") /\
  FindOrCreateParent fm h (TrimRight nm "/") = (p, (fm', h')).
Proof.
  unfold FindOrCreateParent. intros E.
  rewrite parentDirName_TrimRight. split; [|split; [|split; [|split]]].
  - apply FindOrCreate_cases in E
      as [(Hk & -> & ->)|(Hnone & -> & -> & ->)]; [done|].
    rewrite add_keys_lookup. rewrite decide_True; [done|by left].
  - rewrite HasSuffix_slash. apply parentDirName_slash.
  - intros x. apply parentDirName_not_stripped.
  - apply parentDirName_root_or_named.
  - exact E.
Qed.

Lemma FindOrCreateParent_key_witness :
  exists p fm' h',
    FindOrCreateParent ∅ [] "a/b/c.txt" = (p, (fm', h')) /\
    fm' !! "a/b/" = Some p.
Proof.
  destruct (FindOrCreateParent ∅ [] "a/b/c.txt") as [p [fm' h']] eqn:E.
  destruct (FindOrCreateParent_key _ _ _ _ _ _ E) as (H1 & _).
  by exists p, fm', h'.
Defined.

(** X17. Errors of the archive layer are passed on as they are, without a
    path wrapper, and leave the handle as it was: [Read] on a handle
    without stream or temporary file when opening the entry fails, and
    [Seek] on a handle with a live stream when closing that stream fails.
    Each makes exactly one external call, and creates and removes
    nothing. *)
Theorem external_errors_pass_unwrapped env h f zf e w :
  zipFile_of h f = Some zf -> f_closed f = false ->
  fails env (calls w) = Some e ->
  (f_file f = None -> f_reader f = None ->
   forall n, Read env h f n w = Ret ((f, (0%Z, Some e)), tick w)) /\
  (is_Some (f_reader f) ->
   forall offset whence,
     Seek env h f offset whence w = Ret ((f, (0%Z, Some e)), tick w)).
Proof.
  intros Hz Hc He. unfold zipFile_of in Hz.
  destruct f as [nm p rd fl cl rdd]. simpl in *. subst cl.
  split.
  - intros -> -> n. unfold Read, zipFile_of. simpl. rewrite Hz.
    unfold_M. simpl. by rewrite He.
  - intros [r ->] offset whence. unfold Seek. simpl.
    unfold_M. simpl. by rewrite He.
Qed.

Lemma external_errors_pass_unwrapped_witness :
  let h := [{| name := "a.txt"; zipFile := Some (mkFile "a.txt" 3);
               fileInfos := [] |}] in
  let env := {| fails := fun _ => Some (ioError 5); amount := fun _ => 0%Z |} in
  Read env h (openReader 0 "a.txt") 8 world0
  = Ret ((openReader 0 "a.txt", (0%Z, Some (ioError 5))), tick world0).
Proof.
  intros h env.
  destruct (external_errors_pass_unwrapped env h (openReader 0 "a.txt")
              (mkFile "a.txt" 3) (ioError 5) world0 eq_refl eq_refl eq_refl)
    as [HR _].
  by apply HR.
Defined.
